(** * uri2sql: from a parsed HTTP query to an SQL predicate

    A shallow embedding of [uri2sql.js].  The module exports two functions,
    [setsubs] and [uri2sql]; the second one closes over three helpers
    ([getValue], [checkCol] and the operator tables) and a loop that threads
    four variables ([sql], [sort], [valueArray], [substitution]).

    Strings are sequences of 8-bit code units, numbers are IEEE 754 values,
    exceptions are the [Err] side of a result type. *)

From Stdlib Require Import String Ascii List Bool Arith Lia ZArith SpecFloat.
From Stdlib Require Import DecimalString DecimalNat.
Import ListNotations.

Local Open Scope list_scope.
Local Open Scope string_scope.

(** ** The part of the JavaScript runtime the module relies on *)

Module JS.

(** [s.charAt(0)]: the first code unit as a string, or the empty string. *)
Definition charAt0 (s : string) : string :=
  match s with
  | EmptyString => EmptyString
  | String c _ => String c EmptyString
  end.

(** [s.substring(1)]. *)
Definition substring1 (s : string) : string :=
  match s with
  | EmptyString => EmptyString
  | String _ r => r
  end.

(** [s.includes(needle)]: [needle] occurs in [s] as a substring. *)
Fixpoint includes (s needle : string) : bool :=
  String.prefix needle s
  || match s with
     | EmptyString => false
     | String _ r => includes r needle
     end.

(** [s.split(sep)] for a separator of one code unit.  The result is never
    empty: splitting the empty string gives one empty segment. *)
Fixpoint split (sep : ascii) (s : string) : list string :=
  match s with
  | EmptyString => [EmptyString]
  | String c r =>
      if Ascii.eqb c sep then EmptyString :: split sep r
      else match split sep r with
           | h :: t => String c h :: t
           | [] => [String c EmptyString]
           end
  end.

(** Decimal text of a counter, as string concatenation produces it. *)
Definition decimal (n : nat) : string :=
  NilEmpty.string_of_uint (Nat.to_uint n).

(** *** String to number: which strings do not convert to NaN

    [Number(s)] is NaN exactly when [s] does not match the grammar
    StringNumericLiteral: optional white space around either nothing, a
    signed decimal literal (with [Infinity]), or an unsigned binary, octal
    or hexadecimal integer. *)

Definition is_white (c : ascii) : bool :=
  let n := nat_of_ascii c in
  ((9 <=? n) && (n <=? 13) || (n =? 32) || (n =? 160))%nat.

Definition is_digit (c : ascii) : bool :=
  let n := nat_of_ascii c in ((48 <=? n) && (n <=? 57))%nat.

Definition is_bin_digit (c : ascii) : bool :=
  let n := nat_of_ascii c in ((48 <=? n) && (n <=? 49))%nat.

Definition is_oct_digit (c : ascii) : bool :=
  let n := nat_of_ascii c in ((48 <=? n) && (n <=? 55))%nat.

Definition is_hex_digit (c : ascii) : bool :=
  let n := nat_of_ascii c in
  ((48 <=? n) && (n <=? 57) || (65 <=? n) && (n <=? 70)
   || (97 <=? n) && (n <=? 102))%nat.

Fixpoint drop_while (p : ascii -> bool) (l : list ascii) : list ascii :=
  match l with
  | [] => []
  | c :: r => if p c then drop_while p r else l
  end.

Definition trim (l : list ascii) : list ascii :=
  rev (drop_while is_white (rev (drop_while is_white l))).

Definition nonempty_all (p : ascii -> bool) (l : list ascii) : bool :=
  match l with
  | [] => false
  | _ => forallb p l
  end.

(** [c] is one of the code units of [set]. *)
Definition one_of (set : string) (c : ascii) : bool :=
  existsb (Ascii.eqb c) (list_ascii_of_string set).

(** SignedInteger: an optional sign and at least one digit. *)
Definition signed_integer (l : list ascii) : bool :=
  match l with
  | c :: r =>
      if one_of "+-" c then nonempty_all is_digit r
      else nonempty_all is_digit l
  | [] => false
  end.

(** ExponentPart, optional. *)
Definition exponent_opt (l : list ascii) : bool :=
  match l with
  | [] => true
  | c :: r => one_of "eE" c && signed_integer r
  end.

Definition chars_eqb (l : list ascii) (s : string) : bool :=
  String.eqb (string_of_list_ascii l) s.

(** Digits, an optional fraction, an optional exponent; at least one digit
    before the exponent. *)
Definition digits_fraction_exponent (l : list ascii) : bool :=
  let ds := (length l - length (drop_while is_digit l))%nat in
  match drop_while is_digit l with
  | c :: r =>
      if one_of "." c then
        let fs := (length r - length (drop_while is_digit r))%nat in
        negb ((ds =? 0) && (fs =? 0))%nat
        && exponent_opt (drop_while is_digit r)
      else negb (ds =? 0)%nat && exponent_opt (c :: r)
  | [] => negb (ds =? 0)%nat
  end.

(** StrUnsignedDecimalLiteral. *)
Definition unsigned_decimal (l : list ascii) : bool :=
  chars_eqb l "Infinity" || digits_fraction_exponent l.

(** StrDecimalLiteral. *)
Definition decimal_literal (l : list ascii) : bool :=
  match l with
  | c :: r => if one_of "+-" c then unsigned_decimal r else unsigned_decimal l
  | [] => false
  end.

(** NonDecimalIntegerLiteral. *)
Definition non_decimal_literal (l : list ascii) : bool :=
  match l with
  | z :: k :: r =>
      one_of "0" z
      && (one_of "bB" k && nonempty_all is_bin_digit r
          || one_of "oO" k && nonempty_all is_oct_digit r
          || one_of "xX" k && nonempty_all is_hex_digit r)
  | _ => false
  end.

(** [!isNaN(Number(s))]. *)
Definition is_numeric_literal (s : string) : bool :=
  let l := trim (list_ascii_of_string s) in
  match l with
  | [] => true
  | _ => decimal_literal l || non_decimal_literal l
  end.

End JS.

(** ** Data *)

(** A raw scalar of the query: a string, as the query parser delivers it,
    or a number.  The header comment of [uri2sql] names these two and the
    sub-object of operators as the shapes of a value; arrays, [null] and
    deeper nesting are left out of the embedding. *)
Inductive scalar : Type :=
| Str (s : string)
| Num (x : spec_float).

(** The number 1. *)
Definition one : spec_float := S754_finite false 1 0.

(** What a key of the query object maps to: a scalar, or a sub-object
    [{ operator: value, ... }] in iteration order. *)
Inductive qvalue : Type :=
| Scalar (v : scalar)
| Object (ops : list (string * scalar)).

(** The query object, as the sequence of entries [for (var col in query)]
    visits. *)
Definition query : Type := list (string * qvalue).

Inductive jstype : Type := TString | TNumber | TObject.

Definition typeof (v : qvalue) : jstype :=
  match v with
  | Scalar (Str _) => TString
  | Scalar (Num _) => TNumber
  | Object _ => TObject
  end.

Definition jstype_eqb (a b : jstype) : bool :=
  match a, b with
  | TString, TString | TNumber, TNumber | TObject, TObject => true
  | _, _ => false
  end.

(** What [getValue] returns: the object [new Number(param)], the string
    itself, or [undefined] when control falls off the end. *)
Inductive value : Type :=
| VNumber (param : scalar)
| VString (s : string)
| VUndefined.

(** One record of the [columns] argument. *)
Record column : Type := { column_name : string }.

(** The exceptions: the four [throw] statements of the module, and the
    TypeError the runtime raises when [.split] is called on a value that has
    no such method. *)
Inductive error : Type :=
| MissingValue                      (* "ERROR: missing value parameter" *)
| InvalidValue (param : string)     (* "ERROR: invalid value in query: " + param *)
| UnknownColumn (colName : string)  (* "ERROR: invalid column name: " + colName *)
| InvalidSort (v : qvalue)          (* "ERROR: incorrect $sort parameter value: " + query[col] *)
| TypeError.

Inductive result (A : Type) : Type :=
| Ok (a : A)
| Err (e : error).

Arguments Ok {A} a.
Arguments Err {A} e.

Definition bind {A B : Type} (m : result A) (k : A -> result B) : result B :=
  match m with
  | Ok a => k a
  | Err e => Err e
  end.

Notation "x <- m ;; k" := (bind m (fun x => k))
  (at level 61, m at next level, right associativity).
Notation "m ;;; k" := (bind m (fun _ => k))
  (at level 61, right associativity).

Definition is_ok {A : Type} (m : result A) : bool :=
  match m with
  | Ok _ => true
  | Err _ => false
  end.

(** A loop whose body may throw. *)
Fixpoint foldM {S X : Type} (body : S -> X -> result S) (st : S) (l : list X)
  : result S :=
  match l with
  | [] => Ok st
  | x :: r => st' <- body st x ;; foldM body st' r
  end.

(** ** The module-level placeholder symbol *)

Definition subs_default : string := "$".

Definition setsubs (symbol : string) (subs : string) : string := symbol.

(** ** [getValue] *)

Definition length_is_zero (param : scalar) : bool :=
  match param with
  | Str s => (String.length s =? 0)%nat
  | Num _ => false                  (* undefined == 0 is false *)
  end.

(** [isNaN(new Number(param))]. *)
Definition isNaN (param : scalar) : bool :=
  match param with
  | Str s => negb (JS.is_numeric_literal s)
  | Num S754_nan => true
  | Num _ => false
  end.

(** [param.includes("'") || param.includes(";")]. *)
Definition unsafe (s : string) : bool :=
  JS.includes s "'" || JS.includes s ";".

Definition getValue (param : scalar) : result value :=
  if length_is_zero param then Err MissingValue
  else if negb (isNaN param) then Ok (VNumber param)
  else match param with
       | Str s =>
           if s =? "NULL" then Ok (VString s)
           else if unsafe s then Err (InvalidValue s)
                else Ok (VString s)
       | Num _ => Ok VUndefined     (* NaN == "NULL" is false, typeof is "number" *)
       end.

(** [val.split(":")] on what [getValue] returned. *)
Definition split_value (val : value) : result (list string) :=
  match val with
  | VString s => Ok (JS.split ":"%char s)
  | VNumber _ | VUndefined => Err TypeError
  end.

(** ** [checkCol] *)

Definition checkCol (columns : list column) (colName : string) : result unit :=
  if (0 <? length columns)%nat then
    match find (fun o => column_name o =? colName) columns with
    | None => Err (UnknownColumn colName)
    | Some _ => Ok tt
    end
  else Ok tt.

(** ** The operator tables *)

Definition operators : list string :=
  ["eq"; "ne"; "lt"; "gte"; "gt"; "lte"; "in"; "like"; "tween"; "is"].

(** [sqlop[0]] is the normal translation, [sqlop[1]] the negated one. *)
Definition sqlop : list (list string) :=
  [ ["= "; "!= "; "< "; ">= "; "> "; "<= "; "IN ("; "LIKE "; "BETWEEN "; "IS "];
    ["!= "; "= "; ">= "; "< "; "<= "; "> "; "NOT IN ("; "NOT LIKE ";
     "NOT BETWEEN "; "IS NOT "] ].

(** [operators.includes(o)]. *)
Definition operators_includes (o : string) : bool :=
  existsb (String.eqb o) operators.

(** [l.indexOf(o)], for an [o] that occurs in [l]. *)
Fixpoint indexOf (l : list string) (o : string) : nat :=
  match l with
  | [] => 0
  | x :: r => if x =? o then 0 else S (indexOf r o)
  end.

(** [sqlop[negate][i]]; string concatenation turns a missing cell into the
    text "undefined". *)
Definition sqlop_at (negate : bool) (i : nat) : string :=
  match nth_error (nth (if negate then 1 else 0) sqlop []) i with
  | Some s => s
  | None => "undefined"
  end.

(** The SQL operator selected for the token [o]: lines 196-200. *)
Definition op_text (negate : bool) (o : string) : string :=
  if operators_includes o then sqlop_at negate (indexOf operators o)
  else "= ".

(** ** The SQL text under construction

    The text is kept as the sequence of pieces the code appends, so that a
    placeholder the compiler emits is told apart from literal text that
    merely looks like one (a column name, say).  [render] is the string. *)

Inductive piece : Type :=
| Text (s : string)
| Bind (n : nat).           (* subs + n *)

Definition render_piece (subs : string) (p : piece) : string :=
  match p with
  | Text s => s
  | Bind n => subs ++ JS.decimal n
  end.

Definition render (subs : string) (ps : list piece) : string :=
  String.concat "" (map (render_piece subs) ps).

(** The numbers of the placeholders, in order of appearance. *)
Fixpoint binds (ps : list piece) : list nat :=
  match ps with
  | [] => []
  | Text _ :: r => binds r
  | Bind n :: r => n :: binds r
  end.

(** The variables the main loop threads. *)
Record state : Type := {
  sql : list piece;
  sort : string;
  valueArray : list value;
  substitution : nat
}.

Definition initial : state :=
  {| sql := []; sort := ""; valueArray := []; substitution := 1 |}.

(** [sql = sql + s]. *)
Definition append_sql (s : string) (st : state) : state :=
  {| sql := sql st ++ [Text s]; sort := sort st;
     valueArray := valueArray st; substitution := substitution st |}.

(** [sql = sql + subs + (substitution++)]. *)
Definition placeholder (st : state) : state :=
  {| sql := sql st ++ [Bind (substitution st)]; sort := sort st;
     valueArray := valueArray st; substitution := S (substitution st) |}.

(** [valueArray.push(v)]. *)
Definition push (v : value) (st : state) : state :=
  {| sql := sql st; sort := sort st;
     valueArray := valueArray st ++ [v]; substitution := substitution st |}.

Definition set_sort (s : string) (st : state) : state :=
  {| sql := sql st; sort := s;
     valueArray := valueArray st; substitution := substitution st |}.

(** The returned object [{'sql': sql, 'values': valueArray}]. *)
Record compiled : Type := {
  out_sql : list piece;
  values : list value
}.

Definition sql_string (subs : string) (r : compiled) : string :=
  render subs (out_sql r).

(** ** [uri2sql] *)

Section Uri2sql.

Variable subs : string.
Variable columns : list column.

(** One round of [sortCols.forEach]: lines 136-152. *)
Definition sort_step (st : state) (sortCol : string) : result state :=
  let '(sortDir, sortCol) :=
    if JS.charAt0 sortCol =? "-" then (" DESC", JS.substring1 sortCol)
    else ("", sortCol) in
  checkCol columns sortCol ;;;
  let sort1 := if sort st =? "" then "ORDER BY " else sort st ++ ", " in
  Ok (set_sort (sort1 ++ sortCol ++ sortDir) st).

(** The [$sort] directive: lines 128-152. *)
Definition process_sort (st : state) (v : qvalue) : result state :=
  match v with
  | Scalar (Str s) =>
      val <- getValue (Str s) ;;
      sortCols <- split_value val ;;
      foldM sort_step st sortCols
  | _ => Err (InvalidSort v)
  end.

(** The [tween] operator: lines 210-222. *)
Definition process_tween (st : state) (v : scalar) : result state :=
  let st := append_sql " " (placeholder (append_sql " AND " (placeholder st))) in
  val <- getValue v ;;
  varr <- split_value val ;;
  match varr with
  | v0 :: rest =>
      let st := push (VString v0) st in
      match rest with
      | v1 :: _ => Ok (push (VString v1) st)
      | [] => Err MissingValue
      end
  | [] => Err MissingValue
  end.

(** One round of the [forEach] of the [in] operator: lines 229-233. *)
Definition in_step (acc : state * bool) (value : string) : state * bool :=
  let '(st, first) := acc in
  (push (VString value)
     (placeholder (append_sql (if first then "" else ", ") st)),
   false).

(** The [in] operator: lines 227-234. *)
Definition process_in (st : state) (v : scalar) : result state :=
  val <- getValue v ;;
  segments <- split_value val ;;
  Ok (append_sql ") " (fst (fold_left in_step segments (st, true)))).

(** All other operators: lines 239-241. *)
Definition process_single (st : state) (v : scalar) : result state :=
  let st := append_sql " " (placeholder st) in
  val <- getValue v ;;
  Ok (push val st).

(** One round of [for (var op in query[col])]: lines 188-242.  The flag
    [negate] is set by a [-] prefix and stays set for the later operators
    of the same column. *)
Definition process_op (acc : bool * state) (entry : string * scalar)
  : result (bool * state) :=
  let '(negate, st) := acc in
  let '(op, v) := entry in
  let '(negate, o) :=
    if JS.charAt0 op =? "-" then (true, JS.substring1 op) else (negate, op) in
  let st := append_sql (op_text negate o) st in
  st' <- (if o =? "is" then Ok (append_sql "NULL " st)
          else if o =? "tween" then process_tween st v
          else if o =? "in" then process_in st v
          else process_single st v) ;;
  Ok (negate, st').

(** A filter condition: lines 158-244. *)
Definition process_filter (st : state) (col : string) (v : qvalue)
  : result state :=
  checkCol columns col ;;;
  let st := append_sql (if render subs (sql st) =? "" then "WHERE " else "AND ") st in
  let st := append_sql (col ++ " ") st in
  match v with
  | Scalar s =>
      let st := append_sql " " (placeholder (append_sql "= " st)) in
      val <- getValue s ;;
      Ok (push val st)
  | Object ops =>
      acc <- foldM process_op (false, st) ops ;;
      Ok (snd acc)
  end.

(** The body of [for (var col in query)]: lines 115-245. *)
Definition process_entry (st : state) (entry : string * qvalue)
  : result state :=
  let '(col, v) := entry in
  if JS.charAt0 col =? "$" then
    if col =? "$sort" then process_sort st v else Ok st
  else process_filter st col v.

Definition compile (q : query) : result state :=
  foldM process_entry initial q.

Definition uri2sql (q : query) : result compiled :=
  st <- compile q ;;
  Ok {| out_sql := sql st ++ [Text (sort st)]; values := valueArray st |}.

End Uri2sql.

(** ** Vocabulary of the statements *)

(** The code units of a string. *)
Definition chars (s : string) : list ascii := list_ascii_of_string s.

(** A quote or a semicolon. *)
Definition unsafe_char (c : ascii) : bool :=
  Ascii.eqb c "'" || Ascii.eqb c ";".

(** No code unit is a quote or a semicolon. *)
Definition all_safe (l : list ascii) : bool :=
  forallb (fun c => negb (unsafe_char c)) l.

(** [emit ps vals st]: the pieces [ps] were appended to the SQL text, the
    values [vals] pushed, and the counter advanced once per placeholder. *)
Definition emit (ps : list piece) (vals : list value) (st : state) : state :=
  {| sql := sql st ++ ps; sort := sort st;
     valueArray := valueArray st ++ vals;
     substitution := length (binds ps) + substitution st |}.

(** The placeholder list of an [in] operator as the loop emits it. *)
Fixpoint in_pieces (n : nat) (first : bool) (segments : list string) : list piece :=
  match segments with
  | [] => []
  | _ :: r => Text (if first then "" else ", ") :: Bind n :: in_pieces (S n) false r
  end.

(** A key or a sort segment without its leading [-], if it has one. *)
Definition without_minus (s : string) : string :=
  if JS.charAt0 s =? "-" then JS.substring1 s else s.

(** [s.charAt(0) == "-"]. *)
Definition has_minus (s : string) : bool := JS.charAt0 s =? "-".

(** What follows the operator text, by token: lines 201-242. *)
Definition operand (o : string) (st : state) (v : scalar) : result state :=
  if o =? "is" then Ok (emit [Text "NULL "] [] st)
  else if o =? "tween" then process_tween st v
  else if o =? "in" then process_in st v
  else process_single st v.

(** Some record of the allow-list carries the name. *)
Definition known (columns : list column) (colName : string) : bool :=
  existsb (fun o => column_name o =? colName) columns.

(** No string among the values holds a quote or a semicolon. *)
Definition sanitised (vals : list value) : Prop :=
  forall s, In (VString s) vals -> unsafe s = false.

(** [extends st st']: from [st] to [st'] pieces were appended and values
    pushed, the new placeholders are numbered from the counter of [st]
    upwards, one per new value, and the counter of [st'] is past them. *)
Inductive extends (st st' : state) : Prop :=
| Extends (ps : list piece) (vals : list value) :
    sql st' = (sql st ++ ps)%list ->
    valueArray st' = (valueArray st ++ vals)%list ->
    substitution st' = (length vals + substitution st)%nat ->
    binds ps = seq (substitution st) (length vals) ->
    sanitised vals ->
    extends st st'.

(** The raw scalars of a query that are handed to [getValue]: the value of
    a plain filter entry, the string of [$sort], and the value of every
    operator except [is]. *)
Inductive reaches_getValue (q : query) (p : scalar) : Prop :=
| reaches_plain (col : string) :
    In (col, Scalar p) q -> (JS.charAt0 col =? "$") = false ->
    reaches_getValue q p
| reaches_sort (s : string) :
    p = Str s -> In ("$sort", Scalar p) q ->
    reaches_getValue q p
| reaches_operator (col op : string) (ops : list (string * scalar)) :
    In (col, Object ops) q -> (JS.charAt0 col =? "$") = false ->
    In (op, p) ops -> (without_minus op =? "is") = false ->
    reaches_getValue q p.

(** [WHERE] for the first condition, [AND] for the later ones. *)
Definition keyword (subs : string) (st : state) : string :=
  if render subs (sql st) =? "" then "WHERE " else "AND ".

(** The text of the placeholders numbered [n], [n+1], ..., [k] of them,
    joined by [", "]. *)
Definition placeholder_list (subs : string) (n k : nat) : string :=
  String.concat ", " (map (fun i => subs ++ JS.decimal i) (seq n k)).


(** *** Reading placeholders back from a text *)

(** Where the reader of placeholders is: in literal text, or after the
    symbol with the digits read so far. *)
Inductive reading : Type :=
| Outside
| After (digits : option nat).

Definition flush (m : reading) : list nat :=
  match m with
  | After (Some n) => [n]
  | _ => []
  end.

Definition digit_value (c : ascii) : nat := nat_of_ascii c - 48.

Definition read_digit (m : reading) (c : ascii) : reading :=
  match m with
  | Outside => Outside
  | After None => After (Some (digit_value c))
  | After (Some n) => After (Some (digit_value c + 10 * n))
  end.

(** The numbers of the placeholders that occur in a text: each occurrence
    of the symbol followed by a run of digits. *)
Fixpoint scan (sym : ascii) (m : reading) (s : string) : list nat :=
  match s with
  | EmptyString => flush m
  | String c r =>
      if Ascii.eqb c sym then flush m ++ scan sym (After None) r
      else if JS.is_digit c then scan sym (read_digit m c) r
      else flush m ++ scan sym Outside r
  end.

(** The numbers that follow an occurrence of the symbol in a text. *)
Definition placeholders_in (sym : ascii) (s : string) : list nat :=
  scan sym Outside s.

(** The text does not hold the placeholder symbol. *)
Definition symbol_free (sym : ascii) (s : string) : bool :=
  negb (JS.includes s (String sym EmptyString)).

(** The characters of the texts the compiler writes by itself: the
    keywords, the SQL operators and the punctuation between them. *)
Definition own_characters : string := "ABCDEHIKLNORSTUWY =!<>(),".

(** A symbol that can be told apart from the rest of the text: no digit and
    none of the compiler's own characters.  The default [$] is one. *)
Definition usable_symbol (sym : ascii) : bool :=
  negb (JS.is_digit sym) && negb (JS.one_of own_characters sym).

(** The text begins with something that is not a digit. *)
Definition starts_plain (s : string) : bool :=
  match s with
  | EmptyString => false
  | String c _ => negb (JS.is_digit c)
  end.

(** Literal pieces are free of the symbol and every placeholder is followed
    by literal text that does not continue its number. *)
Fixpoint tidy (sym : ascii) (ps : list piece) : bool :=
  match ps with
  | [] => true
  | Text t :: r => symbol_free sym t && tidy sym r
  | Bind _ :: r =>
      match r with
      | Text t :: _ => starts_plain t
      | _ => false
      end && tidy sym r
  end.

(** The names that end up in the SQL text, the filter columns and the
    [$sort] string, do not hold the symbol. *)
Definition plain_name (sym : ascii) (entry : string * qvalue) : bool :=
  let '(col, v) := entry in
  if JS.charAt0 col =? "$" then
    if col =? "$sort" then
      match v with
      | Scalar (Str s) => symbol_free sym s
      | _ => true
      end
    else true
  else symbol_free sym col.

(** The two texts stay readable: the SQL text is tidy and the sort clause
    is free of the symbol. *)
Definition legible (sym : ascii) (st : state) : Prop :=
  tidy sym (sql st) = true /\ symbol_free sym (sort st) = true.

(** *** Further vocabulary *)

(** [fmap] on results. *)
Definition map_result {A B : Type} (f : A -> B) (m : result A) : result B :=
  match m with
  | Ok a => Ok (f a)
  | Err e => Err e
  end.

(** A piece that renders as the empty string whatever the symbol. *)
Definition blank (p : piece) : bool :=
  match p with
  | Text s => s =? ""
  | Bind _ => false
  end.

(** One item of the ORDER BY clause: the column, and [ DESC] for a segment
    that began with [-]. *)
Definition sort_item (segment : string) : string :=
  without_minus segment ++ (if has_minus segment then " DESC" else "").

(** The sort clause after the segments, from the clause so far. *)
Definition sort_clause (so_far : string) (segments : list string) : string :=
  match segments with
  | [] => so_far
  | _ => (if so_far =? "" then "ORDER BY " else so_far ++ ", ")
         ++ String.concat ", " (map sort_item segments)
  end.

(** A key that names a filter column. *)
Definition is_filter (entry : string * qvalue) : bool :=
  negb (JS.charAt0 (fst entry) =? "$").

(** The literal texts that follow an operator: the [NULL] of [is], the
    [ AND ] of [tween], the separators of [in] and the closing space. *)
Definition glue : list string := ["NULL "; " AND "; " "; ""; ", "; ") "].

(** What the number test of [getValue] lets into the value array: a Number
    object is made from a non-empty string that reads as a number, and such
    a string has no quote and no semicolon, or from a number that is not
    NaN.  Strings and [undefined] are not constrained here. *)
Definition clean_number (val : value) : Prop :=
  match val with
  | VNumber (Str s) =>
      s <> "" /\ JS.is_numeric_literal s = true /\ unsafe s = false
  | VNumber (Num x) => x <> S754_nan
  | VString _ | VUndefined => True
  end.

(** [pushes_numbers st st']: the value array of [st'] is that of [st] with
    values appended whose Number objects are all clean. *)
Definition pushes_numbers (st st' : state) : Prop :=
  exists vals,
    valueArray st' = (valueArray st ++ vals)%list /\ Forall clean_number vals.

(** * Properties *)

(** ** Loops and exceptions *)

Lemma bind_Ok_inv {A B : Type} (m : result A) (k : A -> result B) (b : B) :
  bind m k = Ok b -> exists a, m = Ok a /\ k a = Ok b.
Proof.
  destruct m as [a | e]; simpl; intros H; [exists a; auto | discriminate].
Qed.

Lemma foldM_app {S X : Type} (body : S -> X -> result S) (l1 l2 : list X) :
  forall st,
    foldM body st (l1 ++ l2)%list
    = (st' <- foldM body st l1 ;; foldM body st' l2).
Proof.
  induction l1 as [| x l1 IH]; intros st; simpl; [reflexivity |].
  destruct (body st x) as [st1 | e]; simpl; [apply IH | reflexivity].
Qed.

(** A round that throws from every state makes the whole loop throw. *)
Lemma foldM_throws {S X : Type} (body : S -> X -> result S) (x : X) :
  (forall st, is_ok (body st x) = false) ->
  forall l st, In x l -> is_ok (foldM body st l) = false.
Proof.
  intros Hx l; induction l as [| y l IH]; intros st Hin; [destruct Hin |].
  simpl. destruct Hin as [-> | Hin].
  - specialize (Hx st). destruct (body st x); [discriminate | reflexivity].
  - destruct (body st y) as [st1 | e]; simpl; [apply IH; assumption | reflexivity].
Qed.

(** A round that changes nothing can be left out. *)
Lemma foldM_skip {S X : Type} (body : S -> X -> result S) (x : X) :
  (forall st, body st x = Ok st) ->
  forall pre post st,
    foldM body st (pre ++ x :: post)%list = foldM body st (pre ++ post)%list.
Proof.
  intros Hx pre post st. rewrite !foldM_app. simpl.
  destruct (foldM body st pre) as [st1 | e]; simpl; [| reflexivity].
  rewrite Hx. reflexivity.
Qed.

(** ** Directives other than [$sort] *)

(** C10: an entry whose key begins with [$] and is not [$sort] leaves every
    variable of the loop as it was, whatever the allow-list and whatever its
    value, so the compilation of a query with such an entry gives what the
    compilation of the query without it gives, errors included. *)
Theorem unknown_directive_skipped :
  forall (subs : string) (columns : list column) (k : string) (v : qvalue),
    JS.charAt0 k = "$" ->
    k <> "$sort" ->
    (forall st, process_entry subs columns st (k, v) = Ok st)
    /\ (forall pre post,
           uri2sql subs columns (pre ++ (k, v) :: post)%list
           = uri2sql subs columns (pre ++ post)%list).
Proof.
  intros subs columns k v Hk Hns.
  assert (Hstep : forall st, process_entry subs columns st (k, v) = Ok st).
  { intros st. unfold process_entry. rewrite Hk. simpl.
    destruct (String.eqb_spec k "$sort") as [E | _]; [contradiction | reflexivity]. }
  split; [exact Hstep |].
  intros pre post. unfold uri2sql, compile.
  rewrite (foldM_skip _ _ Hstep). reflexivity.
Qed.

Lemma unknown_directive_skipped_witness :
  uri2sql "$" [ {| column_name := "a" |} ]
    [("a", Scalar (Str "x")); ("$limit", Scalar (Str "it's")); ("a", Scalar (Str "y"))]
  = uri2sql "$" [ {| column_name := "a" |} ]
      [("a", Scalar (Str "x")); ("a", Scalar (Str "y"))].
Proof.
  apply (proj2 (unknown_directive_skipped "$" [ {| column_name := "a" |} ]
                  "$limit" (Scalar (Str "it's")) eq_refl
                  ltac:(discriminate))
           [("a", Scalar (Str "x"))] [("a", Scalar (Str "y"))]).
Defined.

(** ** Code units of strings *)

Ltac by_code_unit c :=
  destruct c as [[] [] [] [] [] [] [] []]; vm_compute;
  intros; try reflexivity; try discriminate.

Lemma includes_unit (c : ascii) (s : string) :
  JS.includes s (String c EmptyString) = existsb (Ascii.eqb c) (chars s).
Proof.
  induction s as [| a s IH]; [reflexivity |].
  simpl. rewrite IH.
  destruct (ascii_dec c a) as [-> | Hne].
  - rewrite Ascii.eqb_refl. destruct s; reflexivity.
  - destruct (Ascii.eqb_spec c a); [contradiction | reflexivity].
Qed.

Lemma unsafe_chars (s : string) :
  unsafe s = existsb unsafe_char (chars s).
Proof.
  unfold unsafe. rewrite !includes_unit.
  induction (chars s) as [| a l IH]; [reflexivity |].
  cbn [existsb]. rewrite <- IH. unfold unsafe_char.
  rewrite (Ascii.eqb_sym "'"%char a), (Ascii.eqb_sym ";"%char a).
  destruct (Ascii.eqb a "'"), (Ascii.eqb a ";"); cbn [orb];
    rewrite ?orb_true_r; reflexivity.
Qed.

Lemma unsafe_all_safe (s : string) :
  unsafe s = negb (all_safe (chars s)).
Proof.
  rewrite unsafe_chars. unfold all_safe.
  induction (chars s) as [| a l IH]; [reflexivity |].
  cbn [existsb forallb]. rewrite IH. destruct (unsafe_char a); reflexivity.
Qed.

(** ** No numeric literal holds a quote or a semicolon *)

Section NumericLiterals.

Local Open Scope list_scope.

Lemma white_safe (c : ascii) : JS.is_white c = true -> unsafe_char c = false.
Proof. by_code_unit c. Qed.

Lemma hex_digit_safe (c : ascii) : JS.is_hex_digit c = true -> unsafe_char c = false.
Proof. by_code_unit c. Qed.

Lemma digit_hex (c : ascii) : JS.is_digit c = true -> JS.is_hex_digit c = true.
Proof. by_code_unit c. Qed.

Lemma bin_digit_hex (c : ascii) : JS.is_bin_digit c = true -> JS.is_hex_digit c = true.
Proof. by_code_unit c. Qed.

Lemma oct_digit_hex (c : ascii) : JS.is_oct_digit c = true -> JS.is_hex_digit c = true.
Proof. by_code_unit c. Qed.

Lemma mark_safe (c : ascii) :
  JS.one_of "+-.eE0bBoOxX" c = true -> unsafe_char c = false.
Proof. by_code_unit c. Qed.

Lemma one_of_weaken (set : string) (c : ascii) :
  JS.one_of set c = true ->
  (forall a, In a (chars set) -> In a (chars "+-.eE0bBoOxX")) ->
  JS.one_of "+-.eE0bBoOxX" c = true.
Proof.
  unfold JS.one_of. rewrite !existsb_exists.
  intros [a [Ha Hc]] Hsub. exists a. split; [apply Hsub, Ha | exact Hc].
Qed.

Ltac mark :=
  match goal with
  | H : JS.one_of ?set ?c = true |- unsafe_char ?c = false =>
      apply mark_safe, (one_of_weaken set c H);
      simpl; intuition (subst; auto 20)
  end.

Lemma all_safe_app (l1 l2 : list ascii) :
  all_safe (l1 ++ l2) = all_safe l1 && all_safe l2.
Proof. apply forallb_app. Qed.

Lemma all_safe_of (p : ascii -> bool) (l : list ascii) :
  (forall c, p c = true -> unsafe_char c = false) ->
  forallb p l = true -> all_safe l = true.
Proof.
  intros Hp H. unfold all_safe. rewrite forallb_forall in *.
  intros c Hc. rewrite (Hp c (H c Hc)). reflexivity.
Qed.

Lemma drop_while_prefix (p : ascii -> bool) (l : list ascii) :
  exists pre, l = pre ++ JS.drop_while p l /\ forallb p pre = true.
Proof.
  induction l as [| c l [pre [E Hpre]]]; [exists []; split; reflexivity |].
  simpl. destruct (p c) eqn:Hc.
  - exists (c :: pre). split; [simpl; congruence | simpl; rewrite Hc; exact Hpre].
  - exists []. split; reflexivity.
Qed.

Lemma nonempty_all_forallb (p : ascii -> bool) (l : list ascii) :
  JS.nonempty_all p l = true -> forallb p l = true.
Proof. destruct l; [discriminate | exact (fun H => H)]. Qed.

Lemma digits_safe (l : list ascii) : forallb JS.is_digit l = true -> all_safe l = true.
Proof.
  apply all_safe_of. intros c Hc. apply hex_digit_safe, digit_hex, Hc.
Qed.

Lemma signed_integer_safe (l : list ascii) :
  JS.signed_integer l = true -> all_safe l = true.
Proof.
  destruct l as [| c r]; [discriminate |]. unfold JS.signed_integer.
  destruct (JS.one_of "+-" c) eqn:Hc; intros H.
  - change (all_safe (c :: r)) with (negb (unsafe_char c) && all_safe r).
    rewrite (digits_safe r (nonempty_all_forallb _ _ H)).
    assert (unsafe_char c = false) as -> by mark. reflexivity.
  - apply digits_safe, (nonempty_all_forallb _ _ H).
Qed.

Lemma exponent_opt_safe (l : list ascii) :
  JS.exponent_opt l = true -> all_safe l = true.
Proof.
  destruct l as [| c r]; [reflexivity |]. unfold JS.exponent_opt.
  intros H. apply andb_true_iff in H. destruct H as [Hc Hr].
  change (all_safe (c :: r)) with (negb (unsafe_char c) && all_safe r).
  rewrite (signed_integer_safe r Hr).
  assert (unsafe_char c = false) as -> by mark. reflexivity.
Qed.

Lemma digits_fraction_exponent_safe (l : list ascii) :
  JS.digits_fraction_exponent l = true -> all_safe l = true.
Proof.
  unfold JS.digits_fraction_exponent.
  destruct (drop_while_prefix JS.is_digit l) as [ds [El Hds]].
  assert (E : all_safe l = all_safe (JS.drop_while JS.is_digit l)).
  { rewrite El at 1. rewrite all_safe_app, (digits_safe ds Hds). reflexivity. }
  rewrite E. clear E El. cbv zeta.
  destruct (JS.drop_while JS.is_digit l) as [| c r]; [reflexivity |].
  destruct (JS.one_of "." c) eqn:Hc; intros H.
  - apply andb_true_iff in H. destruct H as [_ He].
    destruct (drop_while_prefix JS.is_digit r) as [fs [Er Hfs]].
    change (all_safe (c :: r)) with (negb (unsafe_char c) && all_safe r).
    rewrite Er, all_safe_app, (digits_safe fs Hfs), (exponent_opt_safe _ He).
    assert (unsafe_char c = false) as -> by mark. reflexivity.
  - apply andb_true_iff in H. destruct H as [_ He].
    apply exponent_opt_safe, He.
Qed.

Lemma unsigned_decimal_safe (l : list ascii) :
  JS.unsigned_decimal l = true -> all_safe l = true.
Proof.
  unfold JS.unsigned_decimal, JS.chars_eqb. intros H.
  apply orb_true_iff in H. destruct H as [H | H].
  - apply String.eqb_eq in H.
    rewrite <- (list_ascii_of_string_of_list_ascii l), H. reflexivity.
  - apply digits_fraction_exponent_safe, H.
Qed.

Lemma decimal_literal_safe (l : list ascii) :
  JS.decimal_literal l = true -> all_safe l = true.
Proof.
  destruct l as [| c r]; [discriminate |]. unfold JS.decimal_literal.
  destruct (JS.one_of "+-" c) eqn:Hc; intros H.
  - change (all_safe (c :: r)) with (negb (unsafe_char c) && all_safe r).
    rewrite (unsigned_decimal_safe r H).
    assert (unsafe_char c = false) as -> by mark. reflexivity.
  - apply unsigned_decimal_safe, H.
Qed.

Lemma non_decimal_literal_safe (l : list ascii) :
  JS.non_decimal_literal l = true -> all_safe l = true.
Proof.
  destruct l as [| z [| k r]]; try discriminate. unfold JS.non_decimal_literal.
  intros H. apply andb_true_iff in H. destruct H as [Hz H].
  change (all_safe (z :: k :: r))
    with (negb (unsafe_char z) && (negb (unsafe_char k) && all_safe r)).
  assert (unsafe_char z = false) as -> by mark.
  assert (Hk : unsafe_char k = false /\ forallb JS.is_hex_digit r = true).
  { rewrite !orb_true_iff, !andb_true_iff in H.
    destruct H as [[[Hk Hr] | [Hk Hr]] | [Hk Hr]];
      (split; [mark |]); apply nonempty_all_forallb in Hr;
      rewrite forallb_forall in *; intros c Hc;
      auto using bin_digit_hex, oct_digit_hex. }
  destruct Hk as [-> Hr]. rewrite (all_safe_of _ r hex_digit_safe Hr). reflexivity.
Qed.

Lemma trim_safe (l : list ascii) : all_safe (JS.trim l) = true -> all_safe l = true.
Proof.
  unfold JS.trim. intros H.
  destruct (drop_while_prefix JS.is_white l) as [pre [El Hpre]].
  destruct (drop_while_prefix JS.is_white (rev (JS.drop_while JS.is_white l)))
    as [post [Er Hpost]].
  set (core := JS.drop_while JS.is_white (rev (JS.drop_while JS.is_white l))) in *.
  assert (E : JS.drop_while JS.is_white l = rev core ++ rev post).
  { rewrite <- rev_app_distr, <- Er, rev_involutive. reflexivity. }
  rewrite El, E, !all_safe_app, H, (all_safe_of _ pre white_safe Hpre).
  rewrite (all_safe_of _ (rev post) white_safe); [reflexivity |].
  rewrite forallb_forall in *. intros c Hc. apply Hpost, in_rev, Hc.
Qed.

Lemma numeric_literal_safe (s : string) :
  JS.is_numeric_literal s = true -> unsafe s = false.
Proof.
  rewrite unsafe_all_safe. unfold JS.is_numeric_literal, chars. intros H.
  rewrite (trim_safe (list_ascii_of_string s)); [reflexivity |].
  destruct (JS.trim (list_ascii_of_string s)) as [| c r] eqn:E; [reflexivity |].
  apply orb_true_iff in H.
  destruct H as [H | H]; [apply decimal_literal_safe | apply non_decimal_literal_safe];
    exact H.
Qed.

End NumericLiterals.

(** ** [getValue] *)

Lemma getValue_empty : getValue (Str "") = Err MissingValue.
Proof. reflexivity. Qed.

Lemma unsafe_not_numeric (s : string) :
  unsafe s = true -> JS.is_numeric_literal s = false.
Proof.
  intros H. destruct (JS.is_numeric_literal s) eqn:E; [| reflexivity].
  rewrite (numeric_literal_safe s E) in H. discriminate.
Qed.

Lemma getValue_unsafe (s : string) :
  unsafe s = true -> getValue (Str s) = Err (InvalidValue s).
Proof.
  intros H. unfold getValue, isNaN, length_is_zero.
  rewrite (unsafe_not_numeric s H). simpl negb.
  destruct s as [| c s]; [discriminate |]. cbn [String.length Nat.eqb].
  destruct (String.eqb_spec (String c s) "NULL") as [E | _].
  - rewrite E in H. discriminate.
  - rewrite H. reflexivity.
Qed.

(** The only strings [getValue] returns are its own argument, and then the
    argument is not empty, not a number and free of quotes and semicolons. *)
Lemma getValue_string (param : scalar) (s : string) :
  getValue param = Ok (VString s) ->
  param = Str s /\ s <> "" /\ JS.is_numeric_literal s = false /\ unsafe s = false.
Proof.
  unfold getValue. destruct (length_is_zero param) eqn:Hlen; [discriminate |].
  destruct (isNaN param) eqn:Hnan; simpl negb; cbv iota; [| discriminate].
  destruct param as [t | x]; [| discriminate].
  assert (Ht : t <> "") by (intros ->; discriminate).
  simpl in Hnan. apply negb_true_iff in Hnan.
  destruct (String.eqb_spec t "NULL") as [E | _].
  - intros [= <-]. subst t. repeat split; auto.
  - destruct (unsafe t) eqn:Hu; [discriminate |].
    intros [= <-]. repeat split; auto.
Qed.

Lemma getValue_plain_string (s : string) :
  s <> "" -> JS.is_numeric_literal s = false -> unsafe s = false ->
  getValue (Str s) = Ok (VString s).
Proof.
  intros Hne Hnum Hsafe. unfold getValue, isNaN, length_is_zero.
  rewrite Hnum. simpl negb.
  destruct s as [| c s]; [contradiction |]. cbn [String.length Nat.eqb].
  rewrite Hsafe. destruct (String c s =? "NULL"); reflexivity.
Qed.

(** ** [split] *)

Lemma split_not_nil (sep : ascii) (s : string) : JS.split sep s <> [].
Proof.
  destruct s as [| c r]; simpl; [discriminate |].
  destruct (Ascii.eqb c sep); [discriminate |].
  destruct (JS.split sep r); discriminate.
Qed.

Lemma split_chars (sep : ascii) (s seg : string) :
  In seg (JS.split sep s) -> forall c, In c (chars seg) -> In c (chars s).
Proof.
  revert seg. induction s as [| a r IH]; intros seg Hin c Hc.
  - destruct Hin as [<- | []]. exact Hc.
  - simpl in Hin. destruct (Ascii.eqb a sep).
    + destruct Hin as [<- | Hin]; [destruct Hc |]. right. exact (IH seg Hin c Hc).
    + pose proof (split_not_nil sep r) as Hnn.
      destruct (JS.split sep r) as [| h t]; [contradiction |].
      destruct Hin as [<- | Hin].
      * destruct Hc as [<- | Hc]; [left; reflexivity |].
        right. apply (IH h); [left; reflexivity | exact Hc].
      * right. apply (IH seg); [right; exact Hin | exact Hc].
Qed.

Lemma split_safe (sep : ascii) (s seg : string) :
  unsafe s = false -> In seg (JS.split sep s) -> unsafe seg = false.
Proof.
  rewrite !unsafe_chars. intros Hs Hin.
  destruct (existsb unsafe_char (chars seg)) eqn:E; [| reflexivity].
  apply existsb_exists in E. destruct E as [c [Hc Hu]].
  rewrite <- Hs. symmetry. apply existsb_exists.
  exists c. split; [exact (split_chars sep s seg Hin c Hc) | exact Hu].
Qed.

(** A string without the separator is one segment; a string with it has at
    least two. *)
Lemma split_without (sep : ascii) (s : string) :
  JS.includes s (String sep EmptyString) = false -> JS.split sep s = [s].
Proof.
  rewrite includes_unit. induction s as [| a r IH]; [reflexivity |].
  cbn [chars list_ascii_of_string existsb]. intros H.
  apply orb_false_iff in H. destruct H as [Ha Hr].
  simpl. rewrite Ascii.eqb_sym, Ha, (IH Hr). reflexivity.
Qed.

Lemma split_with (sep : ascii) (s : string) :
  JS.includes s (String sep EmptyString) = true ->
  exists a b rest, JS.split sep s = a :: b :: rest.
Proof.
  rewrite includes_unit. induction s as [| c r IH]; [discriminate |].
  cbn [chars list_ascii_of_string existsb]. intros H. simpl.
  rewrite (Ascii.eqb_sym sep c) in H.
  pose proof (split_not_nil sep r) as Hnn.
  destruct (Ascii.eqb c sep).
  - destruct (JS.split sep r) as [| h t]; [contradiction |].
    exists "", h, t. reflexivity.
  - destruct (IH H) as [a [b [rest E]]]. rewrite E.
    exists (String c a), b, rest. reflexivity.
Qed.

(** ** The text that the pieces stand for *)

Lemma append_empty_r (s : string) : s ++ "" = s.
Proof. induction s as [| c s IH]; simpl; [reflexivity | now rewrite IH]. Qed.

Lemma append_assoc (a b c : string) : (a ++ b) ++ c = a ++ (b ++ c).
Proof. induction a as [| x a IH]; simpl; [reflexivity | now rewrite IH]. Qed.

Lemma render_cons (subs : string) (p : piece) (ps : list piece) :
  render subs (p :: ps) = render_piece subs p ++ render subs ps.
Proof.
  unfold render. destruct ps as [| q ps]; simpl; [now rewrite append_empty_r | reflexivity].
Qed.

Lemma render_app (subs : string) (ps qs : list piece) :
  render subs (ps ++ qs) = render subs ps ++ render subs qs.
Proof.
  induction ps as [| p ps IH]; [reflexivity |].
  rewrite <- app_comm_cons, !render_cons, IH, append_assoc. reflexivity.
Qed.

(** The three updates of the SQL text append to the string what the
    statements of the source append. *)
Lemma render_append_sql (subs s : string) (st : state) :
  render subs (sql (append_sql s st)) = render subs (sql st) ++ s.
Proof.
  cbn [sql append_sql]. rewrite render_app, render_cons. simpl.
  now rewrite append_empty_r.
Qed.

Lemma render_placeholder (subs : string) (st : state) :
  render subs (sql (placeholder st))
  = render subs (sql st) ++ subs ++ JS.decimal (substitution st).
Proof.
  cbn [sql placeholder]. rewrite render_app, render_cons. simpl.
  now rewrite append_empty_r.
Qed.

Lemma sql_string_eq (subs : string) (columns : list column) (q : query) (r : compiled) :
  uri2sql subs columns q = Ok r ->
  exists st,
    compile subs columns q = Ok st
    /\ sql_string subs r = render subs (sql st) ++ sort st
    /\ values r = valueArray st.
Proof.
  unfold uri2sql. intros H. apply bind_Ok_inv in H. destruct H as [st [Hc H]].
  injection H as <-. exists st. split; [exact Hc |]. split; [| reflexivity].
  unfold sql_string. cbn [out_sql]. rewrite render_app, render_cons. simpl.
  now rewrite append_empty_r.
Qed.

(** ** What a handler did to the state *)

Lemma binds_app (ps qs : list piece) : binds (ps ++ qs) = (binds ps ++ binds qs)%list.
Proof.
  induction ps as [| [s | n] ps IH]; simpl; [reflexivity | exact IH | now rewrite IH].
Qed.

Lemma emit_emit (ps qs : list piece) (vs ws : list value) (st : state) :
  emit qs ws (emit ps vs st) = emit (ps ++ qs) (vs ++ ws) st.
Proof.
  unfold emit; simpl.
  rewrite binds_app, length_app, <- !app_assoc. f_equal. lia.
Qed.

Lemma append_emit (s : string) (st : state) :
  append_sql s st = emit [Text s] [] st.
Proof. unfold append_sql, emit; simpl. now rewrite app_nil_r. Qed.

Lemma placeholder_emit (st : state) :
  placeholder st = emit [Bind (substitution st)] [] st.
Proof. unfold placeholder, emit; simpl. now rewrite app_nil_r. Qed.

Lemma push_emit (v : value) (st : state) : push v st = emit [] [v] st.
Proof. unfold push, emit; simpl. now rewrite app_nil_r. Qed.

Lemma emit_nil (st : state) : emit [] [] st = st.
Proof. destruct st; unfold emit; simpl. now rewrite !app_nil_r. Qed.

Ltac to_emit :=
  rewrite ?append_emit, ?placeholder_emit, ?push_emit, ?emit_emit; simpl.

Lemma binds_in_pieces (segments : list string) :
  forall n first, binds (in_pieces n first segments) = seq n (length segments).
Proof.
  induction segments as [| s r IH]; intros n first; simpl; [reflexivity |].
  now rewrite IH.
Qed.

Lemma fold_in_step (segments : list string) :
  forall st first,
    fst (fold_left in_step segments (st, first))
    = emit (in_pieces (substitution st) first segments) (map VString segments) st.
Proof.
  induction segments as [| s r IH]; intros st first.
  - simpl. now rewrite emit_nil.
  - cbn [fold_left in_step]. rewrite IH. to_emit. reflexivity.
Qed.

(** *** Closed forms of the four handlers *)

Lemma process_single_eq (st : state) (v : scalar) :
  process_single st v
  = (val <- getValue v ;; Ok (emit [Bind (substitution st); Text " "] [val] st)).
Proof.
  unfold process_single. destruct (getValue v) as [val | e]; simpl; [| reflexivity].
  to_emit. reflexivity.
Qed.

Lemma process_in_eq (st : state) (v : scalar) :
  process_in st v
  = (val <- getValue v ;;
     segments <- split_value val ;;
     Ok (emit (in_pieces (substitution st) true segments ++ [Text ") "])
           (map VString segments) st)).
Proof.
  unfold process_in. destruct (getValue v) as [val | e]; simpl; [| reflexivity].
  destruct (split_value val) as [segments | e]; simpl; [| reflexivity].
  rewrite fold_in_step. to_emit. now rewrite app_nil_r.
Qed.

Lemma process_tween_eq (st : state) (v : scalar) :
  process_tween st v
  = (val <- getValue v ;;
     varr <- split_value val ;;
     match varr with
     | v0 :: v1 :: _ =>
         Ok (emit [Bind (substitution st); Text " AND ";
                   Bind (S (substitution st)); Text " "]
               [VString v0; VString v1] st)
     | _ => Err MissingValue
     end).
Proof.
  unfold process_tween. destruct (getValue v) as [val | e]; simpl; [| reflexivity].
  destruct (split_value val) as [[| v0 [| v1 rest]] | e]; simpl; try reflexivity.
  to_emit. reflexivity.
Qed.

Lemma process_op_eq (negate : bool) (st : state) (op : string) (v : scalar) :
  process_op (negate, st) (op, v)
  = (st' <- operand (without_minus op)
              (emit [Text (op_text (has_minus op || negate) (without_minus op))] [] st) v ;;
     Ok (has_minus op || negate, st')).
Proof.
  unfold process_op, without_minus, has_minus, operand.
  destruct (JS.charAt0 op =? "-"); simpl; rewrite !append_emit; reflexivity.
Qed.

(** ** [checkCol] *)

Lemma known_false (columns : list column) (colName : string) :
  known columns colName = false
  <-> forall o, In o columns -> column_name o <> colName.
Proof.
  unfold known. split.
  - intros H o Hin E.
    assert (existsb (fun o => column_name o =? colName) columns = true).
    { apply existsb_exists. exists o. split; [exact Hin | now apply String.eqb_eq]. }
    congruence.
  - intros H. destruct (existsb _ columns) eqn:E; [| reflexivity].
    apply existsb_exists in E. destruct E as [o [Hin E]].
    apply String.eqb_eq in E. destruct (H o Hin E).
Qed.

Lemma checkCol_eq (columns : list column) (colName : string) :
  checkCol columns colName
  = if negb (length columns =? 0)%nat && negb (known columns colName)
    then Err (UnknownColumn colName) else Ok tt.
Proof.
  unfold checkCol, known. destruct columns as [| o r]; [reflexivity |].
  cbn [length Nat.ltb Nat.leb Nat.eqb negb andb].
  induction (o :: r) as [| a l IH]; [reflexivity |].
  cbn [find existsb]. destruct (column_name a =? colName); [reflexivity | exact IH].
Qed.

Lemma checkCol_empty (colName : string) : checkCol [] colName = Ok tt.
Proof. reflexivity. Qed.

Lemma checkCol_unknown (columns : list column) (colName : string) :
  columns <> [] -> known columns colName = false ->
  checkCol columns colName = Err (UnknownColumn colName).
Proof.
  intros Hne Hk. rewrite checkCol_eq, Hk.
  destruct columns; [contradiction | reflexivity].
Qed.

Lemma checkCol_known (columns : list column) (colName : string) :
  known columns colName = true -> checkCol columns colName = Ok tt.
Proof. intros Hk. rewrite checkCol_eq, Hk, andb_false_r. reflexivity. Qed.

(** ** Every step extends the SQL text and the bind sequence in step *)

Lemma extends_refl (st : state) : extends st st.
Proof.
  apply (Extends st st [] []); simpl; rewrite ?app_nil_r; try reflexivity.
  intros s [].
Qed.

Lemma extends_trans (st1 st2 st3 : state) :
  extends st1 st2 -> extends st2 st3 -> extends st1 st3.
Proof.
  intros [ps vs Hs Hv Hn Hb Hc] [qs ws Hs' Hv' Hn' Hb' Hc'].
  apply (Extends st1 st3 (ps ++ qs) (vs ++ ws)).
  - rewrite Hs', Hs, app_assoc. reflexivity.
  - rewrite Hv', Hv, app_assoc. reflexivity.
  - rewrite Hn', Hn, length_app. lia.
  - rewrite binds_app, Hb, Hb', Hn, length_app, seq_app.
    do 2 f_equal. lia.
  - intros s Hin. apply in_app_or in Hin. destruct Hin; [apply Hc | apply Hc']; assumption.
Qed.

Lemma extends_emit (ps : list piece) (vals : list value) (st : state) :
  binds ps = seq (substitution st) (length vals) ->
  sanitised vals ->
  extends st (emit ps vals st).
Proof.
  intros Hb Hc. apply (Extends st _ ps vals); auto.
  simpl. rewrite Hb, length_seq. reflexivity.
Qed.

Lemma extends_set_sort (s : string) (st : state) : extends st (set_sort s st).
Proof.
  apply (Extends st _ [] []); simpl; rewrite ?app_nil_r; try reflexivity.
  intros t [].
Qed.

Lemma extends_text (s : string) (st : state) : extends st (emit [Text s] [] st).
Proof. apply extends_emit; [reflexivity | intros t []]. Qed.

Lemma getValue_sanitised (v : scalar) (val : value) :
  getValue v = Ok val -> sanitised [val].
Proof.
  intros H s [-> | []]. apply getValue_string in H. tauto.
Qed.

Lemma split_value_sanitised (v : scalar) (val : value) (segments : list string) :
  getValue v = Ok val -> split_value val = Ok segments ->
  sanitised (map VString segments).
Proof.
  intros Hv Hs s Hin. apply in_map_iff in Hin. destruct Hin as [seg [[= ->] Hin]].
  destruct val as [p | t |]; try discriminate. injection Hs as <-.
  apply getValue_string in Hv. destruct Hv as [_ [_ [_ Hu]]].
  exact (split_safe _ _ _ Hu Hin).
Qed.

Lemma operand_extends (o : string) (st st' : state) (v : scalar) :
  operand o st v = Ok st' -> extends st st'.
Proof.
  unfold operand.
  destruct (o =? "is"); [intros [= <-]; apply extends_text |].
  destruct (o =? "tween"); [| destruct (o =? "in")].
  - rewrite process_tween_eq. intros H.
    apply bind_Ok_inv in H. destruct H as [val [Hv H]].
    apply bind_Ok_inv in H. destruct H as [varr [Hs H]].
    destruct varr as [| v0 [| v1 rest]]; try discriminate. injection H as <-.
    apply extends_emit; [reflexivity |].
    pose proof (split_value_sanitised v val _ Hv Hs) as Hc.
    intros s [E | [E | []]]; apply Hc; simpl; auto.
  - rewrite process_in_eq. intros H.
    apply bind_Ok_inv in H. destruct H as [val [Hv H]].
    apply bind_Ok_inv in H. destruct H as [segments [Hs H]]. injection H as <-.
    apply extends_emit.
    + rewrite binds_app, binds_in_pieces, length_map. simpl. apply app_nil_r.
    + exact (split_value_sanitised v val _ Hv Hs).
  - rewrite process_single_eq. intros H.
    apply bind_Ok_inv in H. destruct H as [val [Hv H]]. injection H as <-.
    apply extends_emit; [reflexivity | exact (getValue_sanitised v val Hv)].
Qed.

Lemma process_op_extends (negate negate' : bool) (st st' : state)
  (entry : string * scalar) :
  process_op (negate, st) entry = Ok (negate', st') -> extends st st'.
Proof.
  destruct entry as [op v]. rewrite process_op_eq. intros H.
  apply bind_Ok_inv in H. destruct H as [st1 [H1 H]]. injection H as _ <-.
  eapply extends_trans; [apply extends_text | exact (operand_extends _ _ _ _ H1)].
Qed.

Lemma foldM_process_op_extends (ops : list (string * scalar)) :
  forall acc acc',
    foldM process_op acc ops = Ok acc' -> extends (snd acc) (snd acc').
Proof.
  induction ops as [| entry ops IH]; intros acc acc' H.
  - injection H as <-. apply extends_refl.
  - simpl in H. apply bind_Ok_inv in H. destruct H as [[n1 st1] [H1 H]].
    destruct acc as [n st].
    exact (extends_trans _ _ _ (process_op_extends _ _ _ _ _ H1) (IH _ _ H)).
Qed.

Section Extends.

Variable subs : string.
Variable columns : list column.

Lemma sort_step_extends (st st' : state) (sortCol : string) :
  sort_step columns st sortCol = Ok st' -> extends st st'.
Proof.
  unfold sort_step. destruct (JS.charAt0 sortCol =? "-");
    (destruct (checkCol columns _); simpl; [| discriminate]);
    intros [= <-]; apply extends_set_sort.
Qed.

Lemma foldM_sort_step_extends (sortCols : list string) :
  forall st st', foldM (sort_step columns) st sortCols = Ok st' -> extends st st'.
Proof.
  induction sortCols as [| c r IH]; intros st st' H.
  - injection H as <-. apply extends_refl.
  - simpl in H. apply bind_Ok_inv in H. destruct H as [st1 [H1 H]].
    exact (extends_trans _ _ _ (sort_step_extends _ _ _ H1) (IH _ _ H)).
Qed.

Lemma process_entry_extends (st st' : state) (entry : string * qvalue) :
  process_entry subs columns st entry = Ok st' -> extends st st'.
Proof.
  destruct entry as [col v]. unfold process_entry.
  destruct (JS.charAt0 col =? "$").
  - destruct (col =? "$sort"); [| intros [= <-]; apply extends_refl].
    unfold process_sort. destruct v as [[s | x] | ops]; try discriminate.
    intros H. apply bind_Ok_inv in H. destruct H as [val [_ H]].
    apply bind_Ok_inv in H. destruct H as [sortCols [_ H]].
    exact (foldM_sort_step_extends _ _ _ H).
  - unfold process_filter. destruct (checkCol columns col); simpl; [| discriminate].
    rewrite !append_emit.
    set (st1 := emit [Text (col ++ " ")] [] _).
    assert (H1 : extends st st1) by (eapply extends_trans; apply extends_text).
    destruct v as [s | ops]; intros H.
    + apply bind_Ok_inv in H. destruct H as [val [Hv H]]. injection H as <-.
      apply (extends_trans _ _ _ H1). rewrite placeholder_emit, push_emit, !emit_emit.
      apply extends_emit; [reflexivity | exact (getValue_sanitised s val Hv)].
    + apply bind_Ok_inv in H. destruct H as [acc [Ha H]]. injection H as <-.
      exact (extends_trans _ _ _ H1 (foldM_process_op_extends _ _ _ Ha)).
Qed.

Lemma compile_extends (q : query) :
  forall st st', foldM (process_entry subs columns) st q = Ok st' -> extends st st'.
Proof.
  induction q as [| entry q IH]; intros st st' H.
  - injection H as <-. apply extends_refl.
  - simpl in H. apply bind_Ok_inv in H. destruct H as [st1 [H1 H]].
    exact (extends_trans _ _ _ (process_entry_extends _ _ _ H1) (IH _ _ H)).
Qed.

End Extends.

(** ** The whole compilation *)

Section Whole.

Variable subs : string.
Variable columns : list column.

(** An entry that throws is where the compilation stops, if it is reached. *)
Lemma uri2sql_throws (entry : string * qvalue) (e : error) :
  (forall st, process_entry subs columns st entry = Err e) ->
  forall pre post st,
    compile subs columns pre = Ok st ->
    uri2sql subs columns (pre ++ entry :: post)%list = Err e.
Proof.
  intros He pre post st Hpre. unfold uri2sql, compile in *.
  rewrite foldM_app, Hpre. simpl. rewrite He. reflexivity.
Qed.

(** An entry that throws from every state makes the compilation fail. *)
Lemma uri2sql_fails (entry : string * qvalue) :
  (forall st, is_ok (process_entry subs columns st entry) = false) ->
  forall q, In entry q -> is_ok (uri2sql subs columns q) = false.
Proof.
  intros He q Hin. unfold uri2sql, compile.
  pose proof (foldM_throws _ entry He q initial Hin) as H.
  destruct (foldM _ initial q); [discriminate | reflexivity].
Qed.

End Whole.

(** What the compiler emitted is numbered like the values it returns. *)
Lemma uri2sql_binds (subs : string) (columns : list column) (q : query) (r : compiled) :
  uri2sql subs columns q = Ok r ->
  binds (out_sql r) = seq 1 (length (values r)).
Proof.
  intros H. unfold uri2sql in H.
  apply bind_Ok_inv in H. destruct H as [st [Hc H]]. injection H as <-.
  destruct (compile_extends subs columns q initial st Hc) as [ps vals Hs Hv _ Hb _].
  cbn [out_sql values]. simpl in Hs, Hv, Hb.
  rewrite binds_app, Hs, Hv, Hb. apply app_nil_r.
Qed.

Lemma extends_growth (st st' : state) :
  extends st st' ->
  exists ps vals,
    sql st' = (sql st ++ ps)%list
    /\ valueArray st' = (valueArray st ++ vals)%list
    /\ binds ps = seq (substitution st) (length vals)
    /\ substitution st' = (length vals + substitution st)%nat.
Proof. intros [ps vals Hs Hv Hn Hb _]. exists ps, vals. auto. Qed.

(** ** Sanitisation *)

Lemma operand_unsafe (o s : string) (st : state) :
  (o =? "is") = false -> unsafe s = true ->
  operand o st (Str s) = Err (InvalidValue s).
Proof.
  intros Ho Hs. unfold operand. rewrite Ho.
  rewrite process_tween_eq, process_in_eq, process_single_eq, (getValue_unsafe s Hs).
  destruct (o =? "tween"), (o =? "in"); reflexivity.
Qed.

Lemma process_op_unsafe (op s : string) (acc : bool * state) :
  (without_minus op =? "is") = false -> unsafe s = true ->
  process_op acc (op, Str s) = Err (InvalidValue s).
Proof.
  intros Ho Hs. destruct acc as [negate st].
  rewrite process_op_eq, (operand_unsafe _ s _ Ho Hs). reflexivity.
Qed.

Lemma process_sort_unsafe (columns : list column) (s : string) (st : state) :
  unsafe s = true ->
  process_sort columns st (Scalar (Str s)) = Err (InvalidValue s).
Proof. intros Hs. unfold process_sort. rewrite (getValue_unsafe s Hs). reflexivity. Qed.

Lemma process_filter_unsafe (subs : string) (columns : list column)
  (col s : string) (st : state) :
  unsafe s = true ->
  process_filter subs columns st col (Scalar (Str s))
  = (checkCol columns col ;;; Err (InvalidValue s)).
Proof.
  intros Hs. unfold process_filter. rewrite (getValue_unsafe s Hs). reflexivity.
Qed.

Lemma reaches_getValue_fails (subs : string) (columns : list column)
  (q : query) (s : string) :
  unsafe s = true -> reaches_getValue q (Str s) ->
  is_ok (uri2sql subs columns q) = false.
Proof.
  intros Hs [col Hin Hcol | t E Hin | col op ops Hin Hcol Hop Hnot].
  - apply (uri2sql_fails subs columns (col, Scalar (Str s))); [| exact Hin].
    intros st. unfold process_entry. rewrite Hcol, (process_filter_unsafe _ _ _ _ _ Hs).
    destruct (checkCol columns col); reflexivity.
  - apply (uri2sql_fails subs columns ("$sort", Scalar (Str s))); [| exact Hin].
    intros st. unfold process_entry. cbn [JS.charAt0].
    rewrite !String.eqb_refl, (process_sort_unsafe _ _ _ Hs). reflexivity.
  - apply (uri2sql_fails subs columns (col, Object ops)); [| exact Hin].
    intros st. unfold process_entry, process_filter. rewrite Hcol.
    destruct (checkCol columns col); [| reflexivity]. cbn [bind].
    match goal with |- is_ok (bind (foldM _ ?a _) _) = false =>
      pose proof (foldM_throws process_op (op, Str s)
                    (fun acc => f_equal is_ok (process_op_unsafe op s acc Hnot Hs))
                    ops a Hop) as H
    end.
    destruct (foldM process_op _ ops); [discriminate | reflexivity].
Qed.

(** C2, as amended: no string among the returned values holds a quote or a
    semicolon.  A string that holds one is rejected by [getValue] with
    InvalidValue, and every query in which such a string is the value of a
    plain filter entry, the [$sort] string, or the value of an operator
    other than [is] fails to compile; the handler that receives it raises
    InvalidValue.  The value of an [is] operator is not looked at. *)
Theorem stored_strings_are_sanitised :
  (forall subs columns q r s,
      uri2sql subs columns q = Ok r -> In (VString s) (values r) ->
      unsafe s = false)
  /\ (forall s, unsafe s = true -> getValue (Str s) = Err (InvalidValue s))
  /\ (forall subs columns q s,
         unsafe s = true -> reaches_getValue q (Str s) ->
         is_ok (uri2sql subs columns q) = false)
  /\ (forall subs columns st col s,
         unsafe s = true -> (JS.charAt0 col =? "$") = false ->
         checkCol columns col = Ok tt ->
         process_entry subs columns st (col, Scalar (Str s)) = Err (InvalidValue s))
  /\ (forall subs columns st s,
         unsafe s = true ->
         process_entry subs columns st ("$sort", Scalar (Str s)) = Err (InvalidValue s))
  /\ (forall acc op s,
         unsafe s = true -> (without_minus op =? "is") = false ->
         process_op acc (op, Str s) = Err (InvalidValue s))
  /\ (forall negate st op v,
         (without_minus op =? "is") = true ->
         exists st', process_op (negate, st) (op, v) = Ok (has_minus op || negate, st')
                     /\ valueArray st' = valueArray st).
Proof.
  repeat apply conj.
  - intros subs columns q r s H Hin. unfold uri2sql in H.
    apply bind_Ok_inv in H. destruct H as [st [Hc H]]. injection H as <-.
    destruct (compile_extends subs columns q initial st Hc) as [ps vals _ Hv _ _ Hsafe].
    cbn [values] in Hin. rewrite Hv in Hin. exact (Hsafe s Hin).
  - exact getValue_unsafe.
  - exact reaches_getValue_fails.
  - intros subs columns st col s Hs Hcol Hk. unfold process_entry.
    rewrite Hcol, (process_filter_unsafe _ _ _ _ _ Hs), Hk. reflexivity.
  - intros subs columns st s Hs. unfold process_entry. cbn [JS.charAt0].
    rewrite !String.eqb_refl. exact (process_sort_unsafe _ _ _ Hs).
  - intros acc op s Hs Ho. exact (process_op_unsafe op s acc Ho Hs).
  - intros negate st op v Ho. rewrite process_op_eq. unfold operand. rewrite Ho.
    eexists. split; [reflexivity |]. simpl. now rewrite !app_nil_r.
Qed.

Lemma stored_strings_are_sanitised_witness :
  getValue (Str "it's") = Err (InvalidValue "it's")
  /\ is_ok (uri2sql "$" []
              [("a", Scalar (Str "x")); ("b", Object [("-in", Str "1:2;3")])])
     = false.
Proof.
  pose proof stored_strings_are_sanitised as [_ [Hget [Hfail _]]].
  split.
  - exact (Hget "it's" eq_refl).
  - apply (Hfail "$" [] _ "1:2;3" eq_refl).
    apply (reaches_operator _ _ "b" "-in" [("-in", Str "1:2;3")]);
      simpl; auto.
Defined.

(** C2 as first stated promised a failure for every raw scalar with a quote
    or a semicolon; the value of [is] is one that compiles. *)
Lemma is_operand_not_sanitised :
  unsafe "it's" = true
  /\ uri2sql "$" [] [("a", Object [("is", Str "it's")])]
     <> Err (InvalidValue "it's")
  /\ exists r,
       uri2sql "$" [] [("a", Object [("is", Str "it's")])] = Ok r
       /\ sql_string "$" r = "WHERE a IS NULL "
       /\ values r = [].
Proof.
  split; [reflexivity |]. split; [discriminate |].
  eexists. split; [reflexivity |]. split; reflexivity.
Qed.

(** ** Filter entries *)

Section Entries.

Variable subs : string.
Variable columns : list column.

Lemma process_entry_scalar (st : state) (col : string) (p : scalar) :
  (JS.charAt0 col =? "$") = false ->
  process_entry subs columns st (col, Scalar p)
  = (checkCol columns col ;;;
     val <- getValue p ;;
     Ok (emit [Text (keyword subs st); Text (col ++ " "); Text "= ";
               Bind (substitution st); Text " "] [val] st)).
Proof.
  intros Hcol. unfold process_entry, process_filter. rewrite Hcol.
  destruct (checkCol columns col); [| reflexivity]. cbn [bind].
  destruct (getValue p); [| reflexivity]. cbn [bind].
  rewrite !append_emit, placeholder_emit, push_emit, !emit_emit. reflexivity.
Qed.

Lemma process_entry_object (st : state) (col : string) (ops : list (string * scalar)) :
  (JS.charAt0 col =? "$") = false ->
  process_entry subs columns st (col, Object ops)
  = (checkCol columns col ;;;
     acc <- foldM process_op
              (false, emit [Text (keyword subs st); Text (col ++ " ")] [] st) ops ;;
     Ok (snd acc)).
Proof.
  intros Hcol. unfold process_entry, process_filter. rewrite Hcol.
  destruct (checkCol columns col); [| reflexivity]. cbn [bind].
  rewrite !append_emit, !emit_emit. reflexivity.
Qed.

Lemma process_entry_sort (st : state) (v : qvalue) :
  process_entry subs columns st ("$sort", v) = process_sort columns st v.
Proof. reflexivity. Qed.

Lemma process_entry_unknown (st : state) (col : string) (v : qvalue) :
  columns <> [] -> (JS.charAt0 col =? "$") = false -> known columns col = false ->
  process_entry subs columns st (col, v) = Err (UnknownColumn col).
Proof.
  intros Hne Hcol Hk. unfold process_entry, process_filter.
  rewrite Hcol, (checkCol_unknown columns col Hne Hk). reflexivity.
Qed.

(** The first sort column that the allow-list does not know stops the
    [forEach]. *)
Lemma sort_columns_unknown (sortCols : list string) :
  columns <> [] ->
  (exists seg, In seg sortCols /\ known columns (without_minus seg) = false) ->
  forall st,
  exists c, In c (map without_minus sortCols) /\ known columns c = false
            /\ foldM (sort_step columns) st sortCols = Err (UnknownColumn c).
Proof.
  intros Hne. induction sortCols as [| a r IH]; intros [seg [Hin Hk]] st.
  - destruct Hin.
  - assert (Hstep : sort_step columns st a
                    = (checkCol columns (without_minus a) ;;;
                       Ok (set_sort ((if sort st =? "" then "ORDER BY " else sort st ++ ", ")
                                     ++ without_minus a
                                     ++ (if has_minus a then " DESC" else "")) st))).
    { unfold sort_step, without_minus, has_minus.
      destruct (JS.charAt0 a =? "-"); reflexivity. }
    cbn [foldM]. rewrite Hstep.
    destruct (known columns (without_minus a)) eqn:Ka.
    + rewrite (checkCol_known _ _ Ka). cbn [bind].
      destruct Hin as [-> | Hin]; [congruence |].
      match goal with |- context [foldM _ ?st1 r] =>
        destruct (IH (ex_intro _ seg (conj Hin Hk)) st1) as [c [Hc [Hkc E]]]
      end.
      exists c. split; [right; exact Hc | split; [exact Hkc | exact E]].
    + rewrite (checkCol_unknown _ _ Hne Ka). cbn [bind].
      exists (without_minus a). split; [left; reflexivity | split; [exact Ka | reflexivity]].
Qed.

End Entries.

(** ** [NULL] *)

(** C3, as amended: for the raw value [NULL] the normalizer returns the
    string unchanged, and an entry with that value follows the path of any
    other string.  A plain filter entry writes the keyword, the column,
    [= ] and one placeholder, nothing else, and pushes the string [NULL]
    onto the bind sequence; a single-value operator and the [in] operator
    write their SQL operator and one placeholder and push the string; the
    [tween] operator fails with MissingValue, as for any string without a
    colon; a [$sort] entry takes the string for the name of a sort column.
    The [is] operator does not look at its value: whatever the value, it
    writes its SQL operator and the literal [NULL] and pushes nothing. *)
Theorem null_follows_generic_path :
  getValue (Str "NULL") = Ok (VString "NULL")
  /\ (forall subs columns st col,
         (JS.charAt0 col =? "$") = false -> checkCol columns col = Ok tt ->
         process_entry subs columns st (col, Scalar (Str "NULL"))
         = Ok (emit [Text (keyword subs st); Text (col ++ " "); Text "= ";
                     Bind (substitution st); Text " "] [VString "NULL"] st))
  /\ (forall negate st op v,
         (without_minus op =? "is") = true ->
         process_op (negate, st) (op, v)
         = Ok (has_minus op || negate,
               emit [Text (op_text (has_minus op || negate) "is"); Text "NULL "] [] st))
  /\ (forall negate st op,
         (without_minus op =? "is") = false ->
         (without_minus op =? "tween") = false ->
         (without_minus op =? "in") = false ->
         process_op (negate, st) (op, Str "NULL")
         = Ok (has_minus op || negate,
               emit [Text (op_text (has_minus op || negate) (without_minus op));
                     Bind (substitution st); Text " "] [VString "NULL"] st))
  /\ (forall negate st op,
         (without_minus op =? "in") = true ->
         process_op (negate, st) (op, Str "NULL")
         = Ok (has_minus op || negate,
               emit [Text (op_text (has_minus op || negate) "in"); Text "";
                     Bind (substitution st); Text ") "] [VString "NULL"] st))
  /\ (forall subs columns col,
         (JS.charAt0 col =? "$") = false -> checkCol columns col = Ok tt ->
         uri2sql subs columns [(col, Scalar (Str "NULL"))]
         = Ok {| out_sql := [Text "WHERE "; Text (col ++ " "); Text "= "; Bind 1;
                             Text " "; Text ""];
                 values := [VString "NULL"] |})
  /\ (forall negate st op,
         (without_minus op =? "tween") = true ->
         process_op (negate, st) (op, Str "NULL") = Err MissingValue)
  /\ (forall subs columns st,
         checkCol columns "NULL" = Ok tt ->
         process_entry subs columns st ("$sort", Scalar (Str "NULL"))
         = Ok (set_sort ((if sort st =? "" then "ORDER BY " else sort st ++ ", ")
                         ++ "NULL") st)).
Proof.
  assert (Hg : getValue (Str "NULL") = Ok (VString "NULL")) by reflexivity.
  repeat apply conj.
  - exact Hg.
  - intros subs columns st col Hcol Hk.
    rewrite (process_entry_scalar subs columns st col _ Hcol), Hk. reflexivity.
  - intros negate st op v Ho. rewrite process_op_eq. unfold operand. rewrite Ho.
    apply String.eqb_eq in Ho. rewrite Ho. cbn [bind]. rewrite emit_emit. reflexivity.
  - intros negate st op H1 H2 H3. rewrite process_op_eq. unfold operand.
    rewrite H1, H2, H3, process_single_eq, Hg. cbn [bind].
    rewrite emit_emit. reflexivity.
  - intros negate st op Ho. rewrite process_op_eq. unfold operand.
    apply String.eqb_eq in Ho. rewrite Ho. cbn [String.eqb Ascii.eqb Bool.eqb].
    rewrite process_in_eq, Hg. cbn [bind split_value]. rewrite emit_emit. reflexivity.
  - intros subs columns col Hcol Hk. unfold uri2sql, compile. cbn [foldM].
    rewrite (process_entry_scalar subs columns initial col _ Hcol), Hk.
    reflexivity.
  - intros negate st op Ho. rewrite process_op_eq. unfold operand.
    apply String.eqb_eq in Ho. rewrite Ho. cbn [String.eqb Ascii.eqb Bool.eqb].
    rewrite process_tween_eq, Hg. reflexivity.
  - intros subs columns st Hk. unfold process_entry, process_sort.
    cbn [JS.charAt0 String.eqb Ascii.eqb Bool.eqb]. rewrite Hg.
    cbn [bind split_value]. change (JS.split ":" "NULL") with ["NULL"].
    cbn [foldM]. unfold sort_step. cbn [JS.charAt0 String.eqb Ascii.eqb Bool.eqb].
    rewrite Hk. reflexivity.
Qed.

Lemma null_follows_generic_path_witness :
  process_entry "$" [] initial ("col", Scalar (Str "NULL"))
  = Ok (emit [Text "WHERE "; Text "col "; Text "= "; Bind 1; Text " "]
          [VString "NULL"] initial)
  /\ process_op (false, initial) ("-like", Str "NULL")
     = Ok (true, emit [Text "NOT LIKE "; Bind 1; Text " "] [VString "NULL"] initial).
Proof.
  split.
  - exact (proj1 (proj2 null_follows_generic_path) "$" [] initial "col"
             eq_refl eq_refl).
  - exact (proj1 (proj2 (proj2 (proj2 null_follows_generic_path)))
             false initial "-like" eq_refl eq_refl eq_refl).
Defined.

(** C3 as first stated kept [NULL] out of the bind sequence; the plain
    path binds it. *)
Lemma null_is_bound_as_string :
  exists r,
    uri2sql "$" [] [("col", Scalar (Str "NULL"))] = Ok r
    /\ sql_string "$" r = "WHERE col = $1 "
    /\ binds (out_sql r) = [1]
    /\ nth_error (values r) 0 = Some (VString "NULL").
Proof. eexists. split; [reflexivity |]. repeat split; reflexivity. Qed.

(** ** [tween] *)

(** C4, as amended: an entry with the [tween] operator compiles when its
    value normalizes to a string with at least two segments between colons,
    and only when the value is a string that holds a colon.  Two
    placeholders joined by [ AND ] are emitted and the first two segments
    are pushed in order; segments after the second are dropped.  An empty
    value, and a string that normalizes to itself and holds no colon, fail
    with MissingValue. *)
Theorem tween_takes_first_two_segments :
  forall (negate : bool) (st : state) (op : string) (v : scalar),
    (without_minus op =? "tween") = true ->
    (forall s a b rest,
        getValue v = Ok (VString s) -> JS.split ":" s = a :: b :: rest ->
        process_op (negate, st) (op, v)
        = Ok (has_minus op || negate,
              emit [Text (op_text (has_minus op || negate) "tween");
                    Bind (substitution st); Text " AND ";
                    Bind (S (substitution st)); Text " "]
                [VString a; VString b] st))
    /\ (forall acc,
           process_op (negate, st) (op, v) = Ok acc ->
           exists s a b rest,
             v = Str s /\ JS.includes s ":" = true
             /\ JS.split ":" s = a :: b :: rest)
    /\ (v = Str "" -> process_op (negate, st) (op, v) = Err MissingValue)
    /\ (forall s,
           getValue v = Ok (VString s) -> JS.includes s ":" = false ->
           process_op (negate, st) (op, v) = Err MissingValue).
Proof.
  intros negate st op v Ho.
  assert (E : process_op (negate, st) (op, v)
              = (st' <- process_tween
                          (emit [Text (op_text (has_minus op || negate) "tween")] [] st) v ;;
                 Ok (has_minus op || negate, st'))).
  { rewrite process_op_eq. unfold operand.
    apply String.eqb_eq in Ho. rewrite Ho. reflexivity. }
  rewrite E, process_tween_eq. clear E. repeat apply conj.
  - intros s a b rest Hv Hs. rewrite Hv. cbn [bind split_value]. rewrite Hs.
    cbn [bind]. rewrite emit_emit. reflexivity.
  - intros acc H.
    apply bind_Ok_inv in H. destruct H as [st' [H _]].
    apply bind_Ok_inv in H. destruct H as [val [Hv H]].
    apply bind_Ok_inv in H. destruct H as [varr [Hs H]].
    destruct val as [p | s |]; try discriminate. injection Hs as <-.
    apply getValue_string in Hv. destruct Hv as [-> _].
    destruct (JS.includes s ":") eqn:Hi.
    + destruct (split_with ":" s Hi) as [a [b [rest Hab]]].
      exists s, a, b, rest. auto.
    + rewrite (split_without ":" s Hi) in H. discriminate.
  - intros ->. reflexivity.
  - intros s Hv Hi. rewrite Hv. cbn [bind split_value].
    rewrite (split_without ":" s Hi). reflexivity.
Qed.

Lemma tween_takes_first_two_segments_witness :
  process_op (false, initial) ("-tween", Str "18:30")
  = Ok (true, emit [Text "NOT BETWEEN "; Bind 1; Text " AND "; Bind 2; Text " "]
                [VString "18"; VString "30"] initial)
  /\ process_op (false, initial) ("tween", Str "abc") = Err MissingValue.
Proof.
  split.
  - exact (proj1 (tween_takes_first_two_segments false initial "-tween"
                    (Str "18:30") eq_refl)
             "18:30" "18" "30" [] eq_refl eq_refl).
  - exact (proj2 (proj2 (proj2 (tween_takes_first_two_segments false initial "tween"
                                   (Str "abc") eq_refl)))
             "abc" eq_refl eq_refl).
Defined.

(** C4 as first stated wanted exactly two segments, neither of them empty,
    and MissingValue otherwise. *)
Lemma tween_accepts_other_shapes :
  JS.split ":" "a:b:c" = ["a"; "b"; "c"]
  /\ uri2sql "$" [] [("age", Object [("tween", Str "a:b:c")])] <> Err MissingValue
  /\ (exists r,
         uri2sql "$" [] [("age", Object [("tween", Str "a:b:c")])] = Ok r
         /\ sql_string "$" r = "WHERE age BETWEEN $1 AND $2 "
         /\ values r = [VString "a"; VString "b"])
  /\ JS.split ":" "18:" = ["18"; ""]
  /\ uri2sql "$" [] [("age", Object [("tween", Str "18:")])] <> Err MissingValue
  /\ (exists r,
         uri2sql "$" [] [("age", Object [("tween", Str "18:")])] = Ok r
         /\ sql_string "$" r = "WHERE age BETWEEN $1 AND $2 "
         /\ values r = [VString "18"; VString ""]).
Proof.
  split; [reflexivity |]. split; [discriminate |].
  split; [eexists; repeat split; reflexivity |].
  split; [reflexivity |]. split; [discriminate |].
  eexists; repeat split; reflexivity.
Qed.

(** ** The allow-list *)

(** C5: with an empty allow-list [checkCol] accepts every name.  With a
    non-empty one, a filter column that no record names makes its entry
    throw UnknownColumn, and so does the first sort column that no record
    names; the compilation of a query with such a column fails, with
    UnknownColumn when the entries before it compile.  With the allow-list
    [[{column_name: "a"}]], [{b: 1}] fails and [{a: 1}] compiles. *)
Theorem unknown_column_rejected :
  (forall colName, checkCol [] colName = Ok tt)
  /\ (forall columns colName,
         columns <> [] -> known columns colName = false ->
         checkCol columns colName = Err (UnknownColumn colName))
  /\ (forall subs columns st col v,
         columns <> [] -> (JS.charAt0 col =? "$") = false ->
         known columns col = false ->
         process_entry subs columns st (col, v) = Err (UnknownColumn col))
  /\ (forall subs columns st s,
         columns <> [] -> getValue (Str s) = Ok (VString s) ->
         (exists seg, In seg (JS.split ":" s)
                      /\ known columns (without_minus seg) = false) ->
         exists c, In c (map without_minus (JS.split ":" s))
                   /\ known columns c = false
                   /\ process_entry subs columns st ("$sort", Scalar (Str s))
                      = Err (UnknownColumn c))
  /\ (forall subs columns q col v,
         columns <> [] -> (JS.charAt0 col =? "$") = false ->
         known columns col = false -> In (col, v) q ->
         is_ok (uri2sql subs columns q) = false)
  /\ (forall subs columns pre post st col v,
         columns <> [] -> (JS.charAt0 col =? "$") = false ->
         known columns col = false -> compile subs columns pre = Ok st ->
         uri2sql subs columns (pre ++ (col, v) :: post)%list
         = Err (UnknownColumn col))
  /\ (forall subs columns q s,
         columns <> [] -> getValue (Str s) = Ok (VString s) ->
         (exists seg, In seg (JS.split ":" s)
                      /\ known columns (without_minus seg) = false) ->
         In ("$sort", Scalar (Str s)) q ->
         is_ok (uri2sql subs columns q) = false)
  /\ uri2sql "$" [ {| column_name := "a" |} ] [("b", Scalar (Num one))]
     = Err (UnknownColumn "b")
  /\ is_ok (uri2sql "$" [ {| column_name := "a" |} ] [("a", Scalar (Num one))]) = true.
Proof.
  assert (Hsort : forall subs columns st s,
             columns <> [] -> getValue (Str s) = Ok (VString s) ->
             (exists seg, In seg (JS.split ":" s)
                          /\ known columns (without_minus seg) = false) ->
             exists c, In c (map without_minus (JS.split ":" s))
                       /\ known columns c = false
                       /\ process_entry subs columns st ("$sort", Scalar (Str s))
                          = Err (UnknownColumn c)).
  { intros subs columns st s Hne Hv Hex.
    rewrite process_entry_sort. unfold process_sort. rewrite Hv. cbn [bind split_value].
    exact (sort_columns_unknown columns _ Hne Hex st). }
  repeat apply conj.
  - exact checkCol_empty.
  - exact checkCol_unknown.
  - intros subs columns st col v. apply process_entry_unknown.
  - exact Hsort.
  - intros subs columns q col v Hne Hcol Hk Hin.
    apply (uri2sql_fails subs columns (col, v)); [| exact Hin].
    intros st. now rewrite process_entry_unknown.
  - intros subs columns pre post st col v Hne Hcol Hk Hpre.
    apply (uri2sql_throws subs columns (col, v) _) with (st := st); [| exact Hpre].
    intros st0. now apply process_entry_unknown.
  - intros subs columns q s Hne Hv Hex Hin.
    apply (uri2sql_fails subs columns ("$sort", Scalar (Str s))); [| exact Hin].
    intros st. destruct (Hsort subs columns st s Hne Hv Hex) as [c [_ [_ E]]].
    now rewrite E.
  - reflexivity.
  - reflexivity.
Qed.

Lemma unknown_column_rejected_witness :
  uri2sql "$" [ {| column_name := "a" |} ]
    [("a", Scalar (Str "x")); ("c", Scalar (Str "y")); ("a", Scalar (Str "z"))]
  = Err (UnknownColumn "c")
  /\ is_ok (uri2sql "$" [ {| column_name := "a" |} ]
              [("a", Scalar (Str "x")); ("$sort", Scalar (Str "a:-d"))]) = false.
Proof.
  pose proof unknown_column_rejected as [_ [_ [_ [_ [_ [Hpre [Hsort _]]]]]]].
  split.
  - apply (Hpre "$" [ {| column_name := "a" |} ] [("a", Scalar (Str "x"))]
             [("a", Scalar (Str "z"))]
             (emit [Text "WHERE "; Text "a "; Text "= "; Bind 1; Text " "]
                [VString "x"] initial) "c" (Scalar (Str "y")));
      [discriminate | reflexivity | reflexivity | reflexivity].
  - apply (Hsort "$" [ {| column_name := "a" |} ] _ "a:-d");
      [discriminate | reflexivity | | simpl; auto].
    exists "-d". split; [simpl; auto | reflexivity].
Defined.

(** ** Operator tokens *)

Lemma not_operator (o : string) :
  operators_includes o = false ->
  (o =? "is") = false /\ (o =? "tween") = false /\ (o =? "in") = false.
Proof.
  intros H. repeat split;
    match goal with |- (o =? ?t) = false =>
      destruct (String.eqb_spec o t) as [-> | _]; [discriminate H | reflexivity]
    end.
Qed.

(** C6: an operator key whose token, the leading [-] taken off, is none of
    the ten is no error.  The operator written is [= ], with or without the
    [-]; one placeholder follows and the normalized value is pushed.  The
    round fails only if [getValue] does. *)
Theorem unknown_operator_defaults_to_eq :
  forall (negate : bool) (st : state) (op : string) (v : scalar),
    operators_includes (without_minus op) = false ->
    process_op (negate, st) (op, v)
    = (val <- getValue v ;;
       Ok (has_minus op || negate,
           emit [Text "= "; Bind (substitution st); Text " "] [val] st))
    /\ is_ok (process_op (negate, st) (op, v)) = is_ok (getValue v).
Proof.
  intros negate st op v Ho.
  assert (E : process_op (negate, st) (op, v)
              = (val <- getValue v ;;
                 Ok (has_minus op || negate,
                     emit [Text "= "; Bind (substitution st); Text " "] [val] st))).
  { rewrite process_op_eq. unfold operand, op_text. rewrite Ho.
    destruct (not_operator _ Ho) as [-> [-> ->]].
    rewrite process_single_eq. destruct (getValue v); [| reflexivity].
    cbn [bind]. rewrite emit_emit. reflexivity. }
  split; [exact E |]. rewrite E. destruct (getValue v); reflexivity.
Qed.

Lemma unknown_operator_defaults_to_eq_witness :
  process_op (false, initial) ("-between", Str "x")
  = Ok (true, emit [Text "= "; Bind 1; Text " "] [VString "x"] initial).
Proof.
  exact (proj1 (unknown_operator_defaults_to_eq false initial "-between" (Str "x")
                  eq_refl)).
Defined.

(** ** [in] *)

Lemma render_in_pieces (subs : string) (segments : list string) :
  forall n first,
    segments <> [] ->
    render subs (in_pieces n first segments)
    = (if first then "" else ", ") ++ placeholder_list subs n (length segments).
Proof.
  unfold placeholder_list.
  induction segments as [| s r IH]; intros n first Hne; [contradiction |].
  cbn [in_pieces]. rewrite !render_cons. cbn [render_piece].
  destruct r as [| s' r].
  - simpl. now rewrite append_empty_r.
  - rewrite (IH (S n) false) by discriminate. reflexivity.
Qed.

(** C7, as amended: for an entry with the [in] operator whose value
    normalizes to a string, that string is split at the colons into one or
    more segments; the compiler emits one placeholder per segment, joined
    by [", "] and closed by [") "], and pushes the segments in order, as
    the strings they are: a segment is not normalized on its own. *)
Theorem in_pushes_raw_segments :
  forall (negate : bool) (st : state) (op s : string) (v : scalar),
    (without_minus op =? "in") = true ->
    getValue v = Ok (VString s) ->
    JS.split ":" s <> []
    /\ process_op (negate, st) (op, v)
       = Ok (has_minus op || negate,
             emit (Text (op_text (has_minus op || negate) "in")
                   :: in_pieces (substitution st) true (JS.split ":" s)
                   ++ [Text ") "])
               (map VString (JS.split ":" s)) st)
    /\ (forall subs,
           render subs (in_pieces (substitution st) true (JS.split ":" s) ++ [Text ") "])
           = placeholder_list subs (substitution st) (length (JS.split ":" s)) ++ ") ")
    /\ binds (in_pieces (substitution st) true (JS.split ":" s))
       = seq (substitution st) (length (JS.split ":" s)).
Proof.
  intros negate st op s v Ho Hv.
  pose proof (split_not_nil ":" s) as Hne. repeat apply conj.
  - exact Hne.
  - rewrite process_op_eq. unfold operand.
    apply String.eqb_eq in Ho. rewrite Ho. cbn [String.eqb Ascii.eqb Bool.eqb].
    rewrite process_in_eq, Hv. cbn [bind split_value]. rewrite emit_emit. reflexivity.
  - intros subs. rewrite render_app, (render_in_pieces subs _ _ true Hne). reflexivity.
  - apply binds_in_pieces.
Qed.

Lemma in_pushes_raw_segments_witness :
  process_op (false, emit [Text "WHERE "; Text "status "] [] initial)
    ("in", Str "a:b:c")
  = Ok (false,
        emit [Text "IN ("; Text ""; Bind 1; Text ", "; Bind 2; Text ", "; Bind 3;
              Text ") "]
          [VString "a"; VString "b"; VString "c"]
          (emit [Text "WHERE "; Text "status "] [] initial))
  /\ exists r,
       uri2sql "$" [] [("status", Object [("in", Str "a:b:c")])] = Ok r
       /\ sql_string "$" r = "WHERE status IN ($1, $2, $3) "
       /\ values r = [VString "a"; VString "b"; VString "c"].
Proof.
  split.
  - exact (proj1 (proj2 (in_pushes_raw_segments false
                           (emit [Text "WHERE "; Text "status "] [] initial)
                           "in" "a:b:c" (Str "a:b:c") eq_refl eq_refl))).
  - eexists. split; [reflexivity |]. split; reflexivity.
Defined.

(** C7 as first stated had every segment normalized before it is pushed.
    [getValue] would turn the segment [1] into a number and would refuse an
    empty segment; the loop pushes both as strings. *)
Lemma in_segments_are_not_normalized :
  (exists r,
      uri2sql "$" [] [("status", Object [("in", Str "1:2")])] = Ok r
      /\ values r = [VString "1"; VString "2"]
      /\ getValue (Str "1") = Ok (VNumber (Str "1"))
      /\ getValue (Str "2") = Ok (VNumber (Str "2"))
      /\ values r <> [VNumber (Str "1"); VNumber (Str "2")])
  /\ (exists r,
         uri2sql "$" [] [("status", Object [("in", Str "a::b")])] = Ok r
         /\ values r = [VString "a"; VString ""; VString "b"]
         /\ getValue (Str "") = Err MissingValue).
Proof.
  split.
  - eexists. split; [reflexivity |]. repeat split; try reflexivity. discriminate.
  - eexists. split; [reflexivity |]. split; reflexivity.
Qed.

(** ** Negation *)

Ltac each_operator H :=
  unfold operators in H; simpl in H;
  repeat (destruct H as [<- | H]; [| ]); [.. | destruct H].

Lemma operand_grows (o : string) (st st' : state) (v : scalar) (t : string) :
  operand o (emit [Text t] [] st) v = Ok st' ->
  exists rest, sql st' = (sql st ++ Text t :: rest)%list.
Proof.
  intros H. destruct (operand_extends _ _ _ _ H) as [ps vals Hs _ _ _ _].
  exists ps. rewrite Hs. simpl. rewrite <- app_assoc. reflexivity.
Qed.



Example negated_key_scenario :
  exists r r',
    uri2sql "$" [] [("age", Object [("-lt", Str "x")])] = Ok r
    /\ sql_string "$" r = "WHERE age >= $1 "
    /\ uri2sql "$" [] [("age", Object [("lt", Str "x")])] = Ok r'
    /\ sql_string "$" r' = "WHERE age < $1 ".
Proof. eexists. eexists. repeat split; reflexivity. Qed.

(** ** [$sort] *)

(** C9: the string of a [$sort] entry goes through [getValue] whole, before
    it is split at the colons, so whatever [getValue] throws for it the
    entry throws: MissingValue for the empty string, InvalidValue for a
    string with a quote or a semicolon.  The compilation stops there when
    the entries before it compile. *)
Theorem sort_string_is_normalized_first :
  forall (subs : string) (columns : list column) (s : string),
    (forall st,
        process_entry subs columns st ("$sort", Scalar (Str s))
        = (val <- getValue (Str s) ;;
           sortCols <- split_value val ;;
           foldM (sort_step columns) st sortCols))
    /\ (s = "" ->
        (forall st,
            process_entry subs columns st ("$sort", Scalar (Str s)) = Err MissingValue)
        /\ (forall pre post st,
               compile subs columns pre = Ok st ->
               uri2sql subs columns (pre ++ ("$sort", Scalar (Str s)) :: post)%list
               = Err MissingValue))
    /\ (unsafe s = true ->
        (forall st,
            process_entry subs columns st ("$sort", Scalar (Str s))
            = Err (InvalidValue s))
        /\ (forall pre post st,
               compile subs columns pre = Ok st ->
               uri2sql subs columns (pre ++ ("$sort", Scalar (Str s)) :: post)%list
               = Err (InvalidValue s))).
Proof.
  intros subs columns s.
  assert (Hthrow : forall e,
             getValue (Str s) = Err e ->
             (forall st,
                 process_entry subs columns st ("$sort", Scalar (Str s)) = Err e)
             /\ (forall pre post st,
                    compile subs columns pre = Ok st ->
                    uri2sql subs columns (pre ++ ("$sort", Scalar (Str s)) :: post)%list
                    = Err e)).
  { intros e He.
    assert (H : forall st,
               process_entry subs columns st ("$sort", Scalar (Str s)) = Err e).
    { intros st. rewrite process_entry_sort. unfold process_sort. now rewrite He. }
    split; [exact H |]. intros pre post st.
    exact (uri2sql_throws subs columns _ e H pre post st). }
  repeat apply conj.
  - intros st. reflexivity.
  - intros ->. apply Hthrow. reflexivity.
  - intros Hs. apply Hthrow. exact (getValue_unsafe s Hs).
Qed.

Lemma sort_string_is_normalized_first_witness :
  uri2sql "$" [] [("a", Scalar (Str "x")); ("$sort", Scalar (Str ""))]
  = Err MissingValue
  /\ uri2sql "$" [] [("a", Scalar (Str "x")); ("$sort", Scalar (Str "a;b"))]
     = Err (InvalidValue "a;b").
Proof.
  split.
  - exact (proj2 (proj1 (proj2 (sort_string_is_normalized_first "$" [] "")) eq_refl)
             [("a", Scalar (Str "x"))] []
             (emit [Text "WHERE "; Text "a "; Text "= "; Bind 1; Text " "]
                [VString "x"] initial) eq_refl).
  - exact (proj2 (proj2 (proj2 (sort_string_is_normalized_first "$" [] "a;b")) eq_refl)
             [("a", Scalar (Str "x"))] []
             (emit [Text "WHERE "; Text "a "; Text "= "; Bind 1; Text " "]
                [VString "x"] initial) eq_refl).
Defined.

(** ** Reading the placeholders back from the text *)

Lemma chars_app (a b : string) : chars (a ++ b) = (chars a ++ chars b)%list.
Proof. induction a as [| c a IH]; simpl; [reflexivity | now rewrite IH]. Qed.

Section ReadBack.

Variable sym : ascii.
Hypothesis usable : usable_symbol sym = true.

Lemma symbol_not_digit : JS.is_digit sym = false.
Proof.
  unfold usable_symbol in usable. apply andb_true_iff in usable.
  now apply negb_true_iff.
Qed.

Lemma symbol_not_own : JS.one_of own_characters sym = false.
Proof.
  unfold usable_symbol in usable. apply andb_true_iff in usable.
  now apply negb_true_iff.
Qed.

Lemma digit_not_symbol (c : ascii) : JS.is_digit c = true -> Ascii.eqb c sym = false.
Proof.
  intros Hc. destruct (Ascii.eqb_spec c sym) as [-> | _]; [| reflexivity].
  rewrite symbol_not_digit in Hc. discriminate.
Qed.

Lemma symbol_free_chars (s : string) :
  symbol_free sym s = forallb (fun c => negb (Ascii.eqb c sym)) (chars s).
Proof.
  unfold symbol_free. rewrite includes_unit.
  induction (chars s) as [| c l IH]; [reflexivity |].
  cbn [existsb forallb]. rewrite <- IH, (Ascii.eqb_sym sym c).
  destruct (Ascii.eqb c sym); reflexivity.
Qed.

Lemma symbol_free_app (a b : string) :
  symbol_free sym (a ++ b) = symbol_free sym a && symbol_free sym b.
Proof. rewrite !symbol_free_chars, chars_app. apply forallb_app. Qed.

(** A text made of the compiler's own characters is free of the symbol. *)
Lemma symbol_free_own (t : string) :
  forallb (JS.one_of own_characters) (chars t) = true -> symbol_free sym t = true.
Proof.
  rewrite symbol_free_chars, !forallb_forall. intros H c Hc.
  destruct (Ascii.eqb_spec c sym) as [-> | _]; [| reflexivity].
  pose proof (H sym Hc) as E. rewrite symbol_not_own in E. discriminate E.
Qed.

Ltac own_texts :=
  cbn [in_pieces app tidy]; rewrite ?symbol_free_app;
  repeat match goal with
         | |- context [symbol_free sym ?t] =>
             rewrite (symbol_free_own t) by reflexivity
         end.

Lemma symbol_free_segment (s seg : string) :
  symbol_free sym s = true -> In seg (JS.split ":" s) -> symbol_free sym seg = true.
Proof.
  rewrite !symbol_free_chars, !forallb_forall. intros H Hin c Hc.
  exact (H c (split_chars ":" s seg Hin c Hc)).
Qed.

Lemma symbol_free_without_minus (s : string) :
  symbol_free sym s = true -> symbol_free sym (without_minus s) = true.
Proof.
  unfold without_minus. destruct (JS.charAt0 s =? "-"); [| trivial].
  destruct s as [| c r]; [trivial |].
  rewrite !symbol_free_chars. cbn [chars list_ascii_of_string forallb JS.substring1].
  intros H. apply andb_true_iff in H. apply H.
Qed.

Lemma symbol_free_op_text (negate : bool) (o : string) :
  symbol_free sym (op_text negate o) = true.
Proof.
  apply symbol_free_own.
  unfold op_text, operators_includes, operators. cbn [existsb indexOf].
  rewrite !(String.eqb_sym o).
  repeat match goal with
         | |- context [(?t =? o)%string] => destruct (t =? o)%string; cbn [orb]
         end;
    destruct negate; reflexivity.
Qed.

Lemma scan_text (t s : string) :
  symbol_free sym t = true ->
  scan sym Outside (t ++ s) = scan sym Outside s.
Proof.
  rewrite symbol_free_chars. induction t as [| c t IH]; [reflexivity |].
  cbn [chars list_ascii_of_string forallb]. intros H.
  apply andb_true_iff in H. destruct H as [Hc Ht]. apply negb_true_iff in Hc.
  cbn [String.append scan]. rewrite Hc.
  destruct (JS.is_digit c); exact (IH Ht).
Qed.

Ltac read_a_digit :=
  match goal with
  | |- context [scan _ (read_digit _ ?c)] =>
      rewrite (digit_not_symbol c eq_refl);
      change (JS.is_digit c) with true
  end; cbv iota.

Lemma scan_digits (d : Decimal.uint) (s : string) :
  forall n,
    scan sym (After (Some n)) (NilEmpty.string_of_uint d ++ s)
    = scan sym (After (Some (Nat.of_uint_acc d n))) s.
Proof.
  induction d; intros n; cbn [NilEmpty.string_of_uint String.append];
    [reflexivity | ..];
    cbn [scan Nat.of_uint_acc]; rewrite Nat.tail_mul_spec;
    read_a_digit; rewrite <- IHd; reflexivity.
Qed.

Lemma scan_decimal (n : nat) (s : string) :
  scan sym (After None) (JS.decimal n ++ s) = scan sym (After (Some n)) s.
Proof.
  unfold JS.decimal.
  pose proof (DecimalNat.Unsigned.of_to n) as E. unfold Nat.of_uint in E.
  destruct (Nat.to_uint n) as [| d | d | d | d | d | d | d | d | d | d] eqn:D;
    [destruct n; [discriminate D | discriminate E] | ..];
    cbn [NilEmpty.string_of_uint String.append scan];
    read_a_digit; cbn [read_digit];
    rewrite scan_digits, <- E; reflexivity.
Qed.

Lemma scan_after_number (n : nat) (t s : string) :
  starts_plain t = true -> symbol_free sym t = true ->
  scan sym (After (Some n)) (t ++ s) = n :: scan sym Outside (t ++ s).
Proof.
  destruct t as [| c t]; [discriminate |]. cbn [starts_plain].
  rewrite symbol_free_chars. cbn [chars list_ascii_of_string forallb].
  intros Hd H. apply andb_true_iff in H. destruct H as [Hc _].
  apply negb_true_iff in Hd, Hc.
  cbn [String.append scan]. rewrite Hc, Hd. reflexivity.
Qed.

Lemma tidy_app (ps qs : list piece) :
  tidy sym ps = true -> tidy sym qs = true -> tidy sym (ps ++ qs) = true.
Proof.
  intros Hp Hq. induction ps as [| [t | n] ps IH]; [exact Hq | |].
  - cbn [tidy app] in *. apply andb_true_iff in Hp. destruct Hp as [Ht Hp].
    rewrite Ht, (IH Hp). reflexivity.
  - cbn [tidy] in Hp. apply andb_true_iff in Hp. destruct Hp as [Hn Hp].
    destruct ps as [| [t | m] ps]; try discriminate.
    cbn [tidy app] in *. rewrite Hn. exact (IH Hp).
Qed.

(** In a tidy text, what the reader finds is what the compiler emitted. *)
Lemma scan_render (ps : list piece) :
  tidy sym ps = true ->
  placeholders_in sym (render (String sym EmptyString) ps) = binds ps.
Proof.
  unfold placeholders_in.
  induction ps as [| [t | n] ps IH]; [reflexivity | |]; intros H.
  - cbn [tidy] in H. apply andb_true_iff in H. destruct H as [Ht Hp].
    rewrite render_cons. cbn [render_piece binds].
    rewrite (scan_text _ _ Ht). exact (IH Hp).
  - cbn [tidy] in H. apply andb_true_iff in H. destruct H as [Hn Hp].
    destruct ps as [| [t | m] ps]; try discriminate.
    specialize (IH Hp).
    rewrite render_cons in IH. rewrite !render_cons.
    cbn [render_piece binds] in IH |- *.
    cbn [tidy] in Hp. apply andb_true_iff in Hp. destruct Hp as [Ht _].
    cbn [String.append scan flush app]. rewrite Ascii.eqb_refl.
    cbn [app]. rewrite scan_decimal, (scan_after_number _ _ _ Hn Ht), <- IH.
    reflexivity.
Qed.

Lemma tidy_in_pieces (segments : list string) :
  forall n first, tidy sym (in_pieces n first segments ++ [Text ") "]) = true.
Proof.
  induction segments as [| s r IH]; intros n first.
  - own_texts. reflexivity.
  - cbn [in_pieces app tidy]. rewrite (IH (S n) false).
    destruct first, r; own_texts; reflexivity.
Qed.

Lemma tidy_emit (ps : list piece) (vals : list value) (st : state) :
  tidy sym (sql st) = true -> tidy sym ps = true ->
  tidy sym (sql (emit ps vals st)) = true.
Proof. intros Hs Hp. exact (tidy_app _ _ Hs Hp). Qed.

Lemma operand_tidy (o : string) (st st' : state) (v : scalar) :
  operand o st v = Ok st' ->
  tidy sym (sql st) = true -> tidy sym (sql st') = true /\ sort st' = sort st.
Proof.
  unfold operand. intros H Hs.
  destruct (o =? "is").
  { injection H as <-. split; [| reflexivity].
    apply tidy_emit; [exact Hs |]. own_texts. reflexivity. }
  destruct (o =? "tween"); [| destruct (o =? "in")].
  - rewrite process_tween_eq in H.
    apply bind_Ok_inv in H. destruct H as [val [_ H]].
    apply bind_Ok_inv in H. destruct H as [varr [_ H]].
    destruct varr as [| v0 [| v1 rest]]; try discriminate. injection H as <-.
    split; [| reflexivity]. apply tidy_emit; [exact Hs |]. own_texts. reflexivity.
  - rewrite process_in_eq in H.
    apply bind_Ok_inv in H. destruct H as [val [_ H]].
    apply bind_Ok_inv in H. destruct H as [segments [_ H]]. injection H as <-.
    split; [apply tidy_emit; [exact Hs | apply tidy_in_pieces] | reflexivity].
  - rewrite process_single_eq in H.
    apply bind_Ok_inv in H. destruct H as [val [_ H]]. injection H as <-.
    split; [| reflexivity]. apply tidy_emit; [exact Hs |]. own_texts. reflexivity.
Qed.

Lemma foldM_process_op_tidy (ops : list (string * scalar)) :
  forall acc acc',
    foldM process_op acc ops = Ok acc' ->
    tidy sym (sql (snd acc)) = true ->
    tidy sym (sql (snd acc')) = true /\ sort (snd acc') = sort (snd acc).
Proof.
  induction ops as [| [op v] ops IH]; intros [negate st] acc' H Hs.
  - injection H as <-. split; [exact Hs | reflexivity].
  - cbn [foldM] in H. apply bind_Ok_inv in H. destruct H as [[n1 st1] [H1 H]].
    rewrite process_op_eq in H1.
    apply bind_Ok_inv in H1. destruct H1 as [st2 [H1 E]]. injection E as _ <-.
    apply operand_tidy in H1.
    + destruct H1 as [H1 S1]. destruct (IH _ _ H H1) as [H2 S2].
      cbn [snd] in *. split; [exact H2 | now rewrite S2, S1].
    + apply tidy_emit; [exact Hs |].
      cbn [tidy]. now rewrite symbol_free_op_text.
Qed.

Lemma foldM_sort_step_legible (columns : list column) (sortCols : list string) :
  (forall c, In c sortCols -> symbol_free sym c = true) ->
  forall st st',
    foldM (sort_step columns) st sortCols = Ok st' ->
    legible sym st -> legible sym st'.
Proof.
  induction sortCols as [| c r IH]; intros Hfree st st' H Hl.
  - injection H as <-. exact Hl.
  - cbn [foldM] in H. apply bind_Ok_inv in H. destruct H as [st1 [H1 H]].
    apply (IH (fun x Hx => Hfree x (or_intror Hx)) st1 st' H).
    assert (Hc : symbol_free sym (without_minus c) = true)
      by (apply symbol_free_without_minus, Hfree; left; reflexivity).
    destruct Hl as [Hs Ht]. unfold sort_step, without_minus in *.
    destruct (JS.charAt0 c =? "-");
      (destruct (checkCol columns _); [| discriminate]);
      injection H1 as <-; (split; [exact Hs |]); cbn [sort set_sort];
      rewrite !symbol_free_app, Hc; destruct (sort st =? "");
      rewrite ?symbol_free_app, ?Ht;
      repeat match goal with
             | |- context [symbol_free sym ?t] =>
                 rewrite (symbol_free_own t) by reflexivity
             end; reflexivity.
Qed.

Lemma process_entry_legible (subs : string) (columns : list column)
  (st st' : state) (entry : string * qvalue) :
  plain_name sym entry = true ->
  process_entry subs columns st entry = Ok st' ->
  legible sym st -> legible sym st'.
Proof.
  destruct entry as [col v]. unfold plain_name.
  destruct (JS.charAt0 col =? "$") eqn:Hcol.
  - unfold process_entry. rewrite Hcol.
    destruct (col =? "$sort"); [| intros _ [= <-]; trivial].
    destruct v as [[s | x] | ops]; try discriminate.
    intros Hfree H. unfold process_sort in H.
    apply bind_Ok_inv in H. destruct H as [val [Hv H]].
    apply bind_Ok_inv in H. destruct H as [sortCols [Hs H]].
    destruct val as [p | t |]; try discriminate. injection Hs as <-.
    apply getValue_string in Hv. destruct Hv as [[= <-] _].
    apply (foldM_sort_step_legible columns _
             (fun c Hc => symbol_free_segment s c Hfree Hc) _ _ H).
  - intros Hfree H [Hs Ht].
    assert (Hkw : symbol_free sym (keyword subs st) = true).
    { unfold keyword. destruct (render subs (sql st) =? "");
        apply symbol_free_own; reflexivity. }
    assert (Hpre : tidy sym (sql (emit [Text (keyword subs st); Text (col ++ " ")] [] st))
                   = true).
    { apply tidy_emit; [exact Hs |]. cbn [tidy].
      rewrite symbol_free_app, Hfree, Hkw. own_texts. reflexivity. }
    destruct v as [p | ops].
    + rewrite (process_entry_scalar subs columns st col p Hcol) in H.
      destruct (checkCol columns col); [| discriminate]. cbn [bind] in H.
      apply bind_Ok_inv in H. destruct H as [val [_ H]]. injection H as <-.
      split; [| exact Ht]. apply tidy_emit; [exact Hs |]. cbn [tidy].
      rewrite symbol_free_app, Hfree, Hkw. own_texts. reflexivity.
    + rewrite (process_entry_object subs columns st col ops Hcol) in H.
      destruct (checkCol columns col); [| discriminate]. cbn [bind] in H.
      apply bind_Ok_inv in H. destruct H as [acc [Ha H]]. injection H as <-.
      destruct (foldM_process_op_tidy ops _ _ Ha Hpre) as [H1 H2].
      split; [exact H1 | now rewrite H2].
Qed.

Lemma compile_legible (subs : string) (columns : list column) (q : query) :
  forallb (plain_name sym) q = true ->
  forall st st',
    foldM (process_entry subs columns) st q = Ok st' ->
    legible sym st -> legible sym st'.
Proof.
  induction q as [| entry q IH]; intros Hq st st' H Hl.
  - injection H as <-. exact Hl.
  - cbn [forallb] in Hq. apply andb_true_iff in Hq. destruct Hq as [He Hq].
    cbn [foldM] in H. apply bind_Ok_inv in H. destruct H as [st1 [H1 H]].
    exact (IH Hq st1 st' H (process_entry_legible _ _ _ _ _ He H1 Hl)).
Qed.

(** What a reader finds in the returned string is what the compiler
    emitted. *)
Lemma placeholders_read_back (columns : list column) (q : query) (r : compiled) :
  forallb (plain_name sym) q = true ->
  uri2sql (String sym EmptyString) columns q = Ok r ->
  placeholders_in sym (sql_string (String sym EmptyString) r) = binds (out_sql r).
Proof.
  intros Hq H.
  unfold uri2sql in H. apply bind_Ok_inv in H. destruct H as [st [Hc H]].
  injection H as <-. unfold sql_string. cbn [out_sql].
  assert (Hl : legible sym initial) by (split; reflexivity).
  destruct (compile_legible _ _ q Hq _ _ Hc Hl) as [Hs Ht].
  apply scan_render, tidy_app; [exact Hs |]. cbn [tidy]. now rewrite Ht.
Qed.

End ReadBack.

(** C1, as amended: whatever the symbol, the placeholders the compiler
    writes into the SQL text are as many as the returned values and are
    numbered 1, 2, ... up to the number of values, in the order in which
    they are written; every round of the main loop and of the operator
    loop writes as many placeholders as it pushes values, numbered from the
    counter on, and the [is] operator writes none and pushes none.  When
    the symbol is one character that is no digit and none of the
    compiler's own characters, as the default [$] is, and no filter column
    and no [$sort] string of the query holds it, the placeholders that
    appear in the returned string, the symbol followed by digits, are
    these: as many as the values, numbered 1, 2, ... in order of
    appearance. *)
Theorem placeholders_match_values :
  (forall sym columns q r,
      usable_symbol sym = true ->
      forallb (plain_name sym) q = true ->
      uri2sql (String sym EmptyString) columns q = Ok r ->
      length (placeholders_in sym (sql_string (String sym EmptyString) r))
      = length (values r)
      /\ placeholders_in sym (sql_string (String sym EmptyString) r)
         = seq 1 (length (values r)))
  /\ (forall subs columns q r,
         uri2sql subs columns q = Ok r ->
         length (binds (out_sql r)) = length (values r)
         /\ binds (out_sql r) = seq 1 (length (values r)))
  /\ (forall subs columns st entry st',
         process_entry subs columns st entry = Ok st' ->
         exists ps vals,
           sql st' = (sql st ++ ps)%list
           /\ valueArray st' = (valueArray st ++ vals)%list
           /\ binds ps = seq (substitution st) (length vals)
           /\ substitution st' = (length vals + substitution st)%nat)
  /\ (forall negate st entry negate' st',
         process_op (negate, st) entry = Ok (negate', st') ->
         exists ps vals,
           sql st' = (sql st ++ ps)%list
           /\ valueArray st' = (valueArray st ++ vals)%list
           /\ binds ps = seq (substitution st) (length vals)
           /\ substitution st' = (length vals + substitution st)%nat)
  /\ (forall negate st op v,
         (without_minus op =? "is") = true ->
         exists st',
           process_op (negate, st) (op, v) = Ok (has_minus op || negate, st')
           /\ binds (sql st') = binds (sql st)
           /\ valueArray st' = valueArray st
           /\ substitution st' = substitution st).
Proof.
  repeat apply conj.
  - intros sym columns q r Hsym Hq H.
    rewrite (placeholders_read_back sym Hsym columns q r Hq H),
      (uri2sql_binds _ columns q r H), length_seq.
    split; reflexivity.
  - intros subs columns q r H. pose proof (uri2sql_binds subs columns q r H) as E.
    split; [| exact E]. rewrite E. apply length_seq.
  - intros subs columns st entry st' H.
    exact (extends_growth _ _ (process_entry_extends subs columns _ _ _ H)).
  - intros negate st entry negate' st' H.
    exact (extends_growth _ _ (process_op_extends _ _ _ _ _ H)).
  - intros negate st op v Ho. rewrite process_op_eq. unfold operand. rewrite Ho.
    eexists. split; [reflexivity |]. cbn [bind emit sql valueArray substitution].
    rewrite !binds_app, !app_nil_r. repeat split; reflexivity.
Qed.

Lemma placeholders_match_values_witness :
  let q := [("name", Object [("like", Str "%Jones"); ("-is", Str "x")]);
            ("age", Object [("tween", Str "18:30")]);
            ("status", Object [("in", Str "a:b:c")]);
            ("city", Scalar (Str "Paris"));
            ("$sort", Scalar (Str "-age:name"))] in
  exists r,
    uri2sql "$" [] q = Ok r
    /\ sql_string "$" r
       = "WHERE name LIKE $1 IS NOT NULL AND age BETWEEN $2 AND $3 AND status IN ($4, $5, $6) AND city = $7 ORDER BY age DESC, name"
    /\ length (placeholders_in "$" (sql_string "$" r)) = length (values r)
    /\ placeholders_in "$" (sql_string "$" r) = seq 1 (length (values r)).
Proof.
  intros q.
  destruct (uri2sql "$" [] q) as [r | e] eqn:E; [| vm_compute in E; discriminate].
  exists r. split; [reflexivity |].
  split; [vm_compute in E; injection E as <-; reflexivity |].
  exact (proj1 placeholders_match_values "$"%char [] q r eq_refl eq_refl E).
Defined.

(** C1 as first stated spoke of every query that compiles.  A [$sort]
    string, like a column name, is copied into the text as it is, so it can
    bring a placeholder of its own. *)
Lemma sort_string_can_hold_a_placeholder :
  exists r,
    uri2sql "$" [] [("a", Scalar (Str "x")); ("$sort", Scalar (Str "$2"))] = Ok r
    /\ sql_string "$" r = "WHERE a = $1 ORDER BY $2"
    /\ values r = [VString "x"]
    /\ placeholders_in "$" (sql_string "$" r) = [1; 2]
    /\ length (placeholders_in "$" (sql_string "$" r)) <> length (values r).
Proof.
  eexists. split; [reflexivity |]. repeat split; try reflexivity. discriminate.
Qed.

Example read_back_scenario :
  exists r,
    uri2sql "$" [] [("name", Object [("like", Str "%Jones")]);
                    ("city", Scalar (Str "Paris"))] = Ok r
    /\ sql_string "$" r = "WHERE name LIKE $1 AND city = $2 "
    /\ placeholders_in "$" (sql_string "$" r) = [1; 2]
    /\ values r = [VString "%Jones"; VString "Paris"].
Proof. eexists. repeat split; reflexivity. Qed.

Example read_back_oracle :
  exists r,
    usable_symbol ":" = true
    /\ uri2sql ":" [] [("status", Object [("in", Str "a:b")])] = Ok r
    /\ sql_string ":" r = "WHERE status IN (:1, :2) "
    /\ placeholders_in ":" (sql_string ":" r) = [1; 2].
Proof. eexists. repeat split; reflexivity. Qed.

(** ** Scenarios *)

Lemma process_sort_not_string (columns : list column) (st : state) (v : qvalue) :
  jstype_eqb (typeof v) TString = false ->
  process_sort columns st v = Err (InvalidSort v).
Proof. destruct v as [[s | x] | ops]; [discriminate | reflexivity | reflexivity]. Qed.

Example scenario_empty :
  exists r, uri2sql "$" [] [] = Ok r /\ sql_string "$" r = "" /\ values r = [].
Proof. eexists. repeat split; reflexivity. Qed.

Example scenario_tween :
  exists r,
    uri2sql "$" [] [("age", Object [("tween", Str "18:30")])] = Ok r
    /\ sql_string "$" r = "WHERE age BETWEEN $1 AND $2 "
    /\ values r = [VString "18"; VString "30"].
Proof. eexists. repeat split; reflexivity. Qed.

Example scenario_sort :
  exists r,
    uri2sql "$" [] [("$sort", Scalar (Str "-age:name"))] = Ok r
    /\ sql_string "$" r = "ORDER BY age DESC, name"
    /\ values r = [].
Proof. eexists. repeat split; reflexivity. Qed.

Example scenario_quote :
  uri2sql "$" [] [("note", Scalar (Str "it's"))] = Err (InvalidValue "it's").
Proof. reflexivity. Qed.

Example scenario_sort_number :
  uri2sql "$" [] [("$sort", Scalar (Num one))] = Err (InvalidSort (Scalar (Num one))).
Proof. reflexivity. Qed.

Example scenario_oracle :
  exists r,
    uri2sql (setsubs ":" subs_default) [] [("city", Scalar (Str "Paris"))] = Ok r
    /\ sql_string (setsubs ":" subs_default) r = "WHERE city = :1 ".
Proof. eexists. repeat split; reflexivity. Qed.

(** The negation flag is not cleared between the operators of one column. *)
Example scenario_negation_stays :
  exists r,
    uri2sql "$" [] [("a", Object [("-eq", Str "x"); ("lt", Str "y")])] = Ok r
    /\ sql_string "$" r = "WHERE a != $1 >= $2 ".
Proof. eexists. repeat split; reflexivity. Qed.

(** * Further properties *)

(** ** The placeholder symbol *)

Lemma append_is_empty (a b : string) : (a ++ b =? "") = (a =? "") && (b =? "").
Proof. destruct a; [destruct b; reflexivity | reflexivity]. Qed.

Lemma decimal_not_empty (n : nat) : (JS.decimal n =? "") = false.
Proof.
  unfold JS.decimal.
  pose proof (DecimalNat.Unsigned.of_to n) as E. unfold Nat.of_uint in E.
  destruct (Nat.to_uint n) eqn:D; try reflexivity.
  destruct n; [discriminate D | discriminate E].
Qed.

Lemma render_is_empty (subs : string) (ps : list piece) :
  (render subs ps =? "") = forallb blank ps.
Proof.
  induction ps as [| p ps IH]; [reflexivity |].
  rewrite render_cons, append_is_empty, IH. cbn [forallb]. f_equal.
  destruct p as [s | n]; [reflexivity |]. cbn [render_piece blank].
  now rewrite append_is_empty, decimal_not_empty, andb_false_r.
Qed.

Lemma keyword_symbol (subs subs' : string) (st : state) :
  keyword subs st = keyword subs' st.
Proof. unfold keyword. now rewrite !render_is_empty. Qed.

Lemma process_entry_symbol (subs subs' : string) (columns : list column)
  (st : state) (entry : string * qvalue) :
  process_entry subs columns st entry = process_entry subs' columns st entry.
Proof.
  destruct entry as [col v]. unfold process_entry, process_filter.
  now rewrite !render_is_empty.
Qed.

Lemma foldM_ext {S X : Type} (f g : S -> X -> result S) :
  (forall st x, f st x = g st x) ->
  forall l st, foldM f st l = foldM g st l.
Proof.
  intros H l. induction l as [| x l IH]; intros st; [reflexivity |].
  cbn [foldM]. rewrite H. destruct (g st x); [apply IH | reflexivity].
Qed.

(** X8: the placeholder symbol that [setsubs] installs decides how a
    placeholder is spelled and nothing else.  Under any two symbols, the
    empty one included, a query compiles to the same pieces and the same
    values or fails with the same error, and the choice between [WHERE] and
    [AND] is the same. *)
Theorem symbol_only_spells_placeholders :
  forall (subs subs' : string) (columns : list column) (q : query),
    uri2sql (setsubs subs' subs) columns q = uri2sql subs columns q
    /\ (forall st, keyword subs st = keyword subs' st).
Proof.
  intros subs subs' columns q. split.
  - unfold setsubs, uri2sql, compile.
    now rewrite (foldM_ext _ _ (process_entry_symbol subs' subs columns)).
  - intros st. apply keyword_symbol.
Qed.

Lemma symbol_only_spells_placeholders_witness :
  uri2sql (setsubs "" "$") [] [("a", Object [("in", Str "x:y")]); ("b", Scalar (Str "z"))]
  = uri2sql "$" [] [("a", Object [("in", Str "x:y")]); ("b", Scalar (Str "z"))].
Proof.
  exact (proj1 (symbol_only_spells_placeholders "$" "" []
                  [("a", Object [("in", Str "x:y")]); ("b", Scalar (Str "z"))])).
Defined.

(** ** The number test of [getValue] *)

Lemma length_zero_eqb (s : string) : (String.length s =? 0)%nat = (s =? "").
Proof. destruct s; reflexivity. Qed.

Lemma getValue_of_string (s : string) :
  getValue (Str s)
  = if s =? "" then Err MissingValue
    else if JS.is_numeric_literal s then Ok (VNumber (Str s))
    else if unsafe s then Err (InvalidValue s)
    else Ok (VString s).
Proof.
  unfold getValue, length_is_zero, isNaN. rewrite length_zero_eqb.
  destruct (s =? ""); [reflexivity |].
  destruct (JS.is_numeric_literal s); [reflexivity |]. cbn [negb].
  destruct (String.eqb_spec s "NULL") as [-> | _]; reflexivity.
Qed.

Lemma getValue_of_number (x : spec_float) :
  getValue (Num x)
  = Ok (match x with S754_nan => VUndefined | _ => VNumber (Num x) end).
Proof. destruct x; reflexivity. Qed.

Lemma getValue_clean (p : scalar) (val : value) :
  getValue p = Ok val -> clean_number val.
Proof.
  destruct p as [s | x].
  - rewrite getValue_of_string. destruct (String.eqb_spec s "") as [| Hne]; [discriminate |].
    destruct (JS.is_numeric_literal s) eqn:Hnum.
    + intros [= <-]. simpl. auto using numeric_literal_safe.
    + destruct (unsafe s); [discriminate | intros [= <-]; exact I].
  - rewrite getValue_of_number. intros [= <-].
    destruct x; simpl; try exact I; discriminate.
Qed.

Lemma pushes_numbers_refl (st : state) : pushes_numbers st st.
Proof. exists []. rewrite app_nil_r. auto. Qed.

Lemma pushes_numbers_trans (st1 st2 st3 : state) :
  pushes_numbers st1 st2 -> pushes_numbers st2 st3 -> pushes_numbers st1 st3.
Proof.
  intros [vs [Hv Hc]] [ws [Hw Hd]]. exists (vs ++ ws)%list. split.
  - rewrite Hw, Hv, app_assoc. reflexivity.
  - apply Forall_app. auto.
Qed.

Lemma pushes_numbers_emit (ps : list piece) (vals : list value) (st : state) :
  Forall clean_number vals -> pushes_numbers st (emit ps vals st).
Proof. intros H. exists vals. auto. Qed.

Lemma strings_are_clean_numbers (l : list string) :
  Forall clean_number (map VString l).
Proof. induction l; simpl; constructor; [exact I | assumption]. Qed.

Lemma operand_pushes_numbers (o : string) (st st' : state) (v : scalar) :
  operand o st v = Ok st' -> pushes_numbers st st'.
Proof.
  unfold operand.
  destruct (o =? "is"); [intros [= <-]; apply pushes_numbers_emit; constructor |].
  destruct (o =? "tween"); [| destruct (o =? "in")].
  - rewrite process_tween_eq. intros H.
    apply bind_Ok_inv in H. destruct H as [val [Hv H]].
    apply bind_Ok_inv in H. destruct H as [varr [Hs H]].
    destruct varr as [| v0 [| v1 rest]]; try discriminate. injection H as <-.
    apply pushes_numbers_emit. exact (strings_are_clean_numbers [v0; v1]).
  - rewrite process_in_eq. intros H.
    apply bind_Ok_inv in H. destruct H as [val [Hv H]].
    apply bind_Ok_inv in H. destruct H as [segments [Hs H]]. injection H as <-.
    apply pushes_numbers_emit, strings_are_clean_numbers.
  - rewrite process_single_eq. intros H.
    apply bind_Ok_inv in H. destruct H as [val [Hv H]]. injection H as <-.
    apply pushes_numbers_emit. constructor; [exact (getValue_clean v val Hv) | constructor].
Qed.

Lemma foldM_process_op_pushes_numbers (ops : list (string * scalar)) :
  forall acc acc',
    foldM process_op acc ops = Ok acc' -> pushes_numbers (snd acc) (snd acc').
Proof.
  induction ops as [| [op v] ops IH]; intros acc acc' H.
  - injection H as <-. apply pushes_numbers_refl.
  - simpl in H. apply bind_Ok_inv in H. destruct H as [[n1 st1] [H1 H]].
    destruct acc as [n st]. apply (pushes_numbers_trans _ st1); [| exact (IH _ _ H)].
    rewrite process_op_eq in H1.
    apply bind_Ok_inv in H1. destruct H1 as [st2 [H2 E]]. injection E as _ <-.
    cbn [snd]. eapply pushes_numbers_trans; [| exact (operand_pushes_numbers _ _ _ _ H2)].
    apply pushes_numbers_emit. constructor.
Qed.

Lemma foldM_sort_step_values (columns : list column) (sortCols : list string) :
  forall st st',
    foldM (sort_step columns) st sortCols = Ok st' -> valueArray st' = valueArray st.
Proof.
  induction sortCols as [| c r IH]; intros st st' H.
  - injection H as <-. reflexivity.
  - simpl in H. apply bind_Ok_inv in H. destruct H as [st1 [H1 H]].
    rewrite (IH _ _ H). revert H1. unfold sort_step.
    destruct (JS.charAt0 c =? "-");
      (destruct (checkCol columns _); simpl; [| discriminate]);
      intros [= <-]; reflexivity.
Qed.

Lemma process_entry_pushes_numbers (subs : string) (columns : list column)
  (st st' : state) (entry : string * qvalue) :
  process_entry subs columns st entry = Ok st' -> pushes_numbers st st'.
Proof.
  destruct entry as [col v]. unfold process_entry.
  destruct (JS.charAt0 col =? "$").
  - destruct (col =? "$sort"); [| intros [= <-]; apply pushes_numbers_refl].
    unfold process_sort. destruct v as [[s | x] | ops]; try discriminate.
    intros H. apply bind_Ok_inv in H. destruct H as [val [_ H]].
    apply bind_Ok_inv in H. destruct H as [sortCols [_ H]].
    exists []. rewrite app_nil_r. split; [| constructor].
    exact (foldM_sort_step_values _ _ _ _ H).
  - unfold process_filter. destruct (checkCol columns col); simpl; [| discriminate].
    rewrite !append_emit.
    destruct v as [s | ops]; intros H.
    + apply bind_Ok_inv in H. destruct H as [val [Hv H]]. injection H as <-.
      rewrite placeholder_emit, push_emit, !emit_emit.
      apply pushes_numbers_emit. simpl.
      constructor; [exact (getValue_clean s val Hv) | constructor].
    + apply bind_Ok_inv in H. destruct H as [acc [Ha H]]. injection H as <-.
      eapply pushes_numbers_trans; [| exact (foldM_process_op_pushes_numbers _ _ _ Ha)].
      cbn [snd]. rewrite emit_emit. apply pushes_numbers_emit. constructor.
Qed.

Lemma compile_pushes_numbers (subs : string) (columns : list column) (q : query) :
  forall st st',
    foldM (process_entry subs columns) st q = Ok st' -> pushes_numbers st st'.
Proof.
  induction q as [| entry q IH]; intros st st' H.
  - injection H as <-. apply pushes_numbers_refl.
  - simpl in H. apply bind_Ok_inv in H. destruct H as [st1 [H1 H]].
    exact (pushes_numbers_trans _ _ _
             (process_entry_pushes_numbers _ _ _ _ _ H1) (IH _ _ H)).
Qed.

(** X1: the number test of [getValue] runs before the test for quotes and
    semicolons, and it lets none of them through.  A string for which
    [getValue] returns a Number object is not empty, reads as a number and
    holds no quote and no semicolon, and a string that holds one is never
    returned as a Number object.  So in the value array of a compilation
    that succeeds every Number object was made from such a string, or from
    a number that is not NaN. *)
Theorem number_objects_are_clean :
  (forall p s,
      getValue p = Ok (VNumber (Str s)) ->
      p = Str s /\ s <> "" /\ JS.is_numeric_literal s = true /\ unsafe s = false)
  /\ (forall s p, unsafe s = true -> getValue (Str s) <> Ok (VNumber p))
  /\ (forall subs columns q r p,
         uri2sql subs columns q = Ok r -> In (VNumber p) (values r) ->
         match p with
         | Str s => s <> "" /\ JS.is_numeric_literal s = true /\ unsafe s = false
         | Num x => x <> S754_nan
         end).
Proof.
  repeat apply conj.
  - intros p s H. pose proof (getValue_clean _ _ H) as Hc. simpl in Hc.
    split; [| exact Hc].
    destruct p as [t | x].
    + rewrite getValue_of_string in H. destruct (t =? ""); [discriminate |].
      destruct (JS.is_numeric_literal t); [congruence |].
      destruct (unsafe t); discriminate.
    + rewrite getValue_of_number in H. destruct x; discriminate.
  - intros s p Hu H. rewrite (getValue_unsafe s Hu) in H. discriminate.
  - intros subs columns q r p H Hin. unfold uri2sql in H.
    apply bind_Ok_inv in H. destruct H as [st [Hc H]]. injection H as <-.
    destruct (compile_pushes_numbers subs columns q initial st Hc) as [vals [Hv Hf]].
    cbn [values] in Hin. rewrite Hv in Hin. simpl in Hin.
    rewrite Forall_forall in Hf. exact (Hf _ Hin).
Qed.

Lemma number_objects_are_clean_witness :
  exists r,
    uri2sql "$" [] [("age", Object [("gte", Str "1e3")]); ("name", Scalar (Str "Ann"))]
    = Ok r
    /\ values r = [VNumber (Str "1e3"); VString "Ann"]
    /\ JS.is_numeric_literal "1e3" = true /\ unsafe "1e3" = false.
Proof.
  eexists. split; [reflexivity |]. split; [reflexivity |].
  exact (proj2 (proj2 (proj2 number_objects_are_clean) "$" []
                  [("age", Object [("gte", Str "1e3")]); ("name", Scalar (Str "Ann"))]
                  _ (Str "1e3") eq_refl (or_introl eq_refl))).
Defined.

Lemma drop_while_all (p : ascii -> bool) (l : list ascii) :
  forallb p l = true -> JS.drop_while p l = [].
Proof.
  induction l as [| c l IH]; [reflexivity |]. cbn [forallb JS.drop_while].
  intros H. apply andb_true_iff in H. destruct H as [-> H]. exact (IH H).
Qed.

(** X2: a string that is not empty and holds white space only is taken for
    a number (it converts to 0): [getValue] returns a Number object for it
    and does not report a missing value. *)
Theorem blank_string_is_a_number :
  forall s : string,
    s <> "" -> forallb JS.is_white (chars s) = true ->
    getValue (Str s) = Ok (VNumber (Str s)).
Proof.
  intros s Hne Hw.
  assert (Hnum : JS.is_numeric_literal s = true).
  { unfold JS.is_numeric_literal, JS.trim. fold (chars s).
    rewrite (drop_while_all _ _ Hw). reflexivity. }
  rewrite getValue_of_string, Hnum.
  destruct (String.eqb_spec s ""); [contradiction | reflexivity].
Qed.

(** ** Values that have no [split] *)

Lemma blank_string_is_a_number_witness :
  getValue (Str "  ") = Ok (VNumber (Str "  ")).
Proof.
  exact (blank_string_is_a_number "  " ltac:(discriminate) eq_refl).
Defined.

(** X3: what [getValue] returns for a number, or for a string that
    converts to a number, has no [split].  With such a value the [tween]
    and [in] operators and the [$sort] directive end in a TypeError of the
    runtime, not in one of the four errors the module throws; the
    operators outside the table, which do not split, accept it. *)
Theorem numeric_value_has_no_split :
  forall p : scalar,
    (exists x, p = Num x)
    \/ (exists s, p = Str s /\ s <> "" /\ JS.is_numeric_literal s = true) ->
    (forall acc op,
        without_minus op = "tween" \/ without_minus op = "in" ->
        process_op acc (op, p) = Err TypeError)
    /\ (forall subs columns st s,
           p = Str s ->
           process_entry subs columns st ("$sort", Scalar p) = Err TypeError)
    /\ (forall acc op,
           operators_includes (without_minus op) = false ->
           is_ok (process_op acc (op, p)) = true).
Proof.
  intros p Hp.
  assert (Hv : exists val, getValue p = Ok val /\ split_value val = Err TypeError).
  { destruct Hp as [[x ->] | [s [-> [Hne Hs]]]].
    - rewrite getValue_of_number. eexists. split; [reflexivity |]. destruct x; reflexivity.
    - rewrite getValue_of_string, Hs.
      destruct (String.eqb_spec s ""); [contradiction |].
      eexists. split; reflexivity. }
  destruct Hv as [val [Hv Hsplit]]. repeat apply conj.
  - intros [negate st] op Ho. rewrite process_op_eq. unfold operand.
    destruct Ho as [-> | ->]; cbn [String.eqb Ascii.eqb Bool.eqb];
      rewrite ?process_tween_eq, ?process_in_eq, Hv; cbn [bind];
      rewrite Hsplit; reflexivity.
  - intros subs columns st s ->. rewrite process_entry_sort. unfold process_sort.
    rewrite Hv. cbn [bind]. rewrite Hsplit. reflexivity.
  - intros [negate st] op Ho. rewrite process_op_eq. unfold operand.
    destruct (not_operator _ Ho) as [-> [-> ->]].
    rewrite process_single_eq, Hv. reflexivity.
Qed.

Lemma numeric_value_has_no_split_witness :
  process_op (false, initial) ("tween", Str "18") = Err TypeError
  /\ process_op (false, initial) ("-in", Str "5") = Err TypeError
  /\ process_entry "$" [] initial ("$sort", Scalar (Str "12")) = Err TypeError.
Proof.
  assert (H : forall s, s <> "" -> JS.is_numeric_literal s = true ->
                        (exists x, Str s = Num x)
                        \/ (exists t, Str s = Str t /\ t <> ""
                                       /\ JS.is_numeric_literal t = true)).
  { intros s Hne Hs. right. exists s. auto. }
  split; [| split].
  - exact (proj1 (numeric_value_has_no_split (Str "18")
                    (H "18" ltac:(discriminate) eq_refl))
             (false, initial) "tween" (or_introl eq_refl)).
  - exact (proj1 (numeric_value_has_no_split (Str "5")
                    (H "5" ltac:(discriminate) eq_refl))
             (false, initial) "-in" (or_intror eq_refl)).
  - exact (proj1 (proj2 (numeric_value_has_no_split (Str "12")
                           (H "12" ltac:(discriminate) eq_refl)))
             "$" [] initial "12" eq_refl).
Defined.

(** ** [$sort] with a value that is no string *)

(** X4: a [$sort] entry whose value is a number or a sub-object throws
    InvalidSort with that value, from every state, before the normalizer
    or the allow-list is consulted; a query with such an entry never
    compiles, and stops with InvalidSort when the entries before it
    compile. *)
Theorem sort_value_must_be_string :
  forall (subs : string) (columns : list column) (v : qvalue),
    jstype_eqb (typeof v) TString = false ->
    (forall st, process_entry subs columns st ("$sort", v) = Err (InvalidSort v))
    /\ (forall pre post st,
           compile subs columns pre = Ok st ->
           uri2sql subs columns (pre ++ ("$sort", v) :: post)%list
           = Err (InvalidSort v))
    /\ (forall q, In ("$sort", v) q -> is_ok (uri2sql subs columns q) = false).
Proof.
  intros subs columns v Hv.
  assert (H : forall st, process_entry subs columns st ("$sort", v) = Err (InvalidSort v)).
  { intros st. rewrite process_entry_sort.
    destruct v as [[s | x] | ops]; [discriminate | reflexivity | reflexivity]. }
  repeat apply conj.
  - exact H.
  - intros pre post st. exact (uri2sql_throws subs columns _ _ H pre post st).
  - intros q. apply uri2sql_fails. intros st. now rewrite H.
Qed.

Lemma sort_value_must_be_string_witness :
  uri2sql "$" [] [("a", Scalar (Str "x")); ("$sort", Object [("eq", Str "a")])]
  = Err (InvalidSort (Object [("eq", Str "a")])).
Proof.
  exact (proj1 (proj2 (sort_value_must_be_string "$" []
                         (Object [("eq", Str "a")]) eq_refl))
           [("a", Scalar (Str "x"))] []
           (emit [Text "WHERE "; Text "a "; Text "= "; Bind 1; Text " "]
              [VString "x"] initial) eq_refl).
Defined.

(** ** The negation flag within one column *)

Lemma process_op_flag (negate negate' : bool) (st st' : state) (op : string) (v : scalar) :
  process_op (negate, st) (op, v) = Ok (negate', st') ->
  negate' = has_minus op || negate.
Proof.
  rewrite process_op_eq. intros H. apply bind_Ok_inv in H.
  destruct H as [st1 [_ H]]. now injection H as <- _.
Qed.

Lemma foldM_process_op_flag (ops : list (string * scalar)) :
  forall negate st negate' st',
    foldM process_op (negate, st) ops = Ok (negate', st') ->
    negate' = existsb (fun entry => has_minus (fst entry)) ops || negate.
Proof.
  induction ops as [| [op v] ops IH]; intros negate st negate' st' H.
  - now injection H as <- _.
  - cbn [foldM] in H. apply bind_Ok_inv in H. destruct H as [[n1 st1] [H1 H]].
    rewrite (IH _ _ _ _ H), (process_op_flag _ _ _ _ _ _ H1).
    cbn [existsb fst]. now rewrite orb_assoc, (orb_comm (existsb _ ops)).
Qed.

(** X9: the negation flag is set by a [-] key and never cleared inside one
    column: after a round of operators it is set exactly when it was set
    before or one of the keys began with [-].  Once it is set, a bare
    token of the table is handled as its negated key: it writes the negated
    row. *)
Theorem negation_stays_set :
  forall (pre : list (string * scalar)) (negate : bool) (st : state)
         (negate1 : bool) (st1 : state),
    foldM process_op (negate, st) pre = Ok (negate1, st1) ->
    negate1 = existsb (fun entry => has_minus (fst entry)) pre || negate
    /\ (existsb (fun entry => has_minus (fst entry)) pre = true ->
        forall o v,
          In o operators ->
          process_op (negate1, st1) (o, v) = process_op (negate1, st1) ("-" ++ o, v)
          /\ forall acc,
               process_op (negate1, st1) (o, v) = Ok acc ->
               fst acc = true
               /\ exists rest,
                    sql (snd acc) = (sql st1 ++ Text (op_text true o) :: rest)%list).
Proof.
  intros pre negate st negate1 st1 H.
  pose proof (foldM_process_op_flag _ _ _ _ _ H) as E.
  split; [exact E |]. intros Hm o v Hin. rewrite Hm in E. cbn [orb] in E. subst negate1.
  assert (Hplain : has_minus o = false /\ without_minus o = o)
    by (each_operator Hin; split; reflexivity).
  destruct Hplain as [Hh Hw].
  split.
  - rewrite !process_op_eq, Hh, Hw. reflexivity.
  - intros acc Hacc. rewrite process_op_eq, Hh, Hw in Hacc.
    apply bind_Ok_inv in Hacc. destruct Hacc as [st' [Ho Ha]]. injection Ha as <-.
    split; [reflexivity | exact (operand_grows _ _ _ _ _ Ho)].
Qed.

Lemma negation_stays_set_witness :
  process_op (true, emit [Text "!= "; Bind 1; Text " "] [VString "x"] initial)
    ("lt", Str "y")
  = process_op (true, emit [Text "!= "; Bind 1; Text " "] [VString "x"] initial)
      ("-lt", Str "y").
Proof.
  exact (proj1 (proj2 (negation_stays_set [("-eq", Str "x")] false initial true
                         (emit [Text "!= "; Bind 1; Text " "] [VString "x"] initial)
                         eq_refl) eq_refl "lt" (Str "y") ltac:(simpl; auto))).
Defined.

(** ** The ORDER BY clause *)

Lemma sort_step_eq (columns : list column) (st : state) (segment : string) :
  sort_step columns st segment
  = (checkCol columns (without_minus segment) ;;;
     Ok (set_sort ((if sort st =? "" then "ORDER BY " else sort st ++ ", ")
                   ++ sort_item segment) st)).
Proof.
  unfold sort_step, sort_item, without_minus, has_minus.
  destruct (JS.charAt0 segment =? "-"); reflexivity.
Qed.

Lemma set_sort_set_sort (s t : string) (st : state) :
  set_sort s (set_sort t st) = set_sort s st.
Proof. reflexivity. Qed.

Lemma set_sort_same (st : state) : set_sort (sort st) st = st.
Proof. destruct st; reflexivity. Qed.

Lemma sort_clause_cons (so_far segment : string) (segments : list string) :
  sort_clause ((if so_far =? "" then "ORDER BY " else so_far ++ ", ")
               ++ sort_item segment) segments
  = sort_clause so_far (segment :: segments).
Proof.
  unfold sort_clause. destruct segments as [| s r]; [reflexivity |].
  set (head := if so_far =? "" then "ORDER BY " else so_far ++ ", ").
  assert (Hne : (head ++ sort_item segment =? "") = false).
  { rewrite append_is_empty. unfold head.
    destruct (so_far =? ""); [reflexivity |].
    rewrite append_is_empty. cbn. now rewrite andb_false_r. }
  rewrite Hne. cbn [map String.concat]. now rewrite !append_assoc.
Qed.

Lemma foldM_sort_step_eq (columns : list column) (segments : list string) :
  (forall segment, In segment segments ->
                   checkCol columns (without_minus segment) = Ok tt) ->
  forall st,
    foldM (sort_step columns) st segments
    = Ok (set_sort (sort_clause (sort st) segments) st).
Proof.
  induction segments as [| c r IH]; intros Hk st.
  - cbn. now rewrite set_sort_same.
  - cbn [foldM]. rewrite sort_step_eq, (Hk c (or_introl eq_refl)). cbn [bind].
    rewrite (IH (fun x Hx => Hk x (or_intror Hx))).
    cbn [sort set_sort]. rewrite sort_clause_cons. reflexivity.
Qed.

(** X5: when the [$sort] string normalizes to itself and every sort column
    passes the allow-list, the entry sets the sort clause to the items of
    its segments joined by [", "], after [ORDER BY ] if the clause was empty
    and after the old clause and [", "] otherwise; an item is the segment
    without its leading [-], followed by [ DESC] if it had one.  It changes
    nothing else, so a query with this entry alone returns the clause and
    no values. *)
Theorem order_by_clause :
  forall (subs : string) (columns : list column) (s : string),
    getValue (Str s) = Ok (VString s) ->
    (forall segment, In segment (JS.split ":" s) ->
                     checkCol columns (without_minus segment) = Ok tt) ->
    (forall st,
        process_entry subs columns st ("$sort", Scalar (Str s))
        = Ok (set_sort (sort_clause (sort st) (JS.split ":" s)) st))
    /\ uri2sql subs columns [("$sort", Scalar (Str s))]
       = Ok {| out_sql := [Text ("ORDER BY "
                                 ++ String.concat ", " (map sort_item (JS.split ":" s)))];
               values := [] |}.
Proof.
  intros subs columns s Hv Hk.
  assert (H : forall st,
             process_entry subs columns st ("$sort", Scalar (Str s))
             = Ok (set_sort (sort_clause (sort st) (JS.split ":" s)) st)).
  { intros st. rewrite process_entry_sort. unfold process_sort.
    rewrite Hv. cbn [bind split_value]. exact (foldM_sort_step_eq columns _ Hk st). }
  split; [exact H |].
  unfold uri2sql, compile. cbn [foldM]. rewrite H. cbn [bind].
  unfold sort_clause. pose proof (split_not_nil ":" s) as Hne.
  destruct (JS.split ":" s); [contradiction | reflexivity].
Qed.

Lemma order_by_clause_witness :
  uri2sql "$" [ {| column_name := "age" |}; {| column_name := "name" |} ]
    [("$sort", Scalar (Str "-age:name"))]
  = Ok {| out_sql := [Text "ORDER BY age DESC, name"]; values := [] |}.
Proof.
  assert (Hk : forall segment,
             In segment (JS.split ":" "-age:name") ->
             checkCol [ {| column_name := "age" |}; {| column_name := "name" |} ]
               (without_minus segment) = Ok tt).
  { intros segment [<- | [<- | []]]; reflexivity. }
  exact (proj2 (order_by_clause "$"
                  [ {| column_name := "age" |}; {| column_name := "name" |} ]
                  "-age:name" eq_refl Hk)).
Defined.

(** ** Filters and the sort clause do not meet *)

Lemma map_result_Ok_inv {A B : Type} (f : A -> B) (m : result A) (b : B) :
  map_result f m = Ok b -> exists a, m = Ok a /\ b = f a.
Proof. destruct m as [a | e]; [intros [= <-]; exists a; auto | discriminate]. Qed.

Lemma operand_set_sort (o s : string) (st : state) (v : scalar) :
  operand o (set_sort s st) v = map_result (set_sort s) (operand o st v).
Proof.
  unfold operand. destruct (o =? "is"); [reflexivity |].
  rewrite !process_tween_eq, !process_in_eq, !process_single_eq.
  destruct (o =? "tween"), (o =? "in");
    (destruct (getValue v) as [val | e]; [| reflexivity]); cbn [bind];
    try reflexivity;
    (destruct (split_value val) as [[| v0 [| v1 rest]] | e]; reflexivity).
Qed.

Lemma process_op_set_sort (negate : bool) (s : string) (st : state)
  (entry : string * scalar) :
  process_op (negate, set_sort s st) entry
  = map_result (fun acc => (fst acc, set_sort s (snd acc)))
      (process_op (negate, st) entry).
Proof.
  destruct entry as [op v]. rewrite !process_op_eq.
  change (emit ?ps [] (set_sort s st)) with (set_sort s (emit ps [] st)).
  rewrite operand_set_sort. destruct (operand _ _ v); reflexivity.
Qed.

Lemma foldM_process_op_set_sort (s : string) (ops : list (string * scalar)) :
  forall negate st,
    foldM process_op (negate, set_sort s st) ops
    = map_result (fun acc => (fst acc, set_sort s (snd acc)))
        (foldM process_op (negate, st) ops).
Proof.
  induction ops as [| entry ops IH]; intros negate st; [reflexivity |].
  cbn [foldM]. rewrite process_op_set_sort.
  destruct (process_op (negate, st) entry) as [[n1 st1] | e]; [| reflexivity].
  cbn [bind map_result fst snd]. apply IH.
Qed.

Lemma process_entry_set_sort (subs : string) (columns : list column)
  (s : string) (st : state) (entry : string * qvalue) :
  fst entry <> "$sort" ->
  process_entry subs columns (set_sort s st) entry
  = map_result (set_sort s) (process_entry subs columns st entry).
Proof.
  destruct entry as [col v]. cbn [fst]. intros Hcol. unfold process_entry.
  destruct (JS.charAt0 col =? "$").
  - destruct (String.eqb_spec col "$sort"); [contradiction | reflexivity].
  - unfold process_filter. destruct (checkCol columns col); [| reflexivity].
    cbn [bind]. destruct v as [p | ops].
    + destruct (getValue p); reflexivity.
    + change (append_sql ?a (append_sql ?b (set_sort s st)))
        with (set_sort s (append_sql a (append_sql b st))).
      rewrite foldM_process_op_set_sort.
      destruct (foldM process_op _ ops) as [[n1 st1] | e]; reflexivity.
Qed.

Lemma foldM_process_entry_set_sort (subs : string) (columns : list column)
  (s : string) (q : query) :
  (forall entry, In entry q -> fst entry <> "$sort") ->
  forall st,
    foldM (process_entry subs columns) (set_sort s st) q
    = map_result (set_sort s) (foldM (process_entry subs columns) st q).
Proof.
  induction q as [| entry q IH]; intros Hq st; [reflexivity |].
  cbn [foldM]. rewrite (process_entry_set_sort _ _ _ _ _ (Hq entry (or_introl eq_refl))).
  destruct (process_entry subs columns st entry) as [st1 | e]; [| reflexivity].
  cbn [bind map_result]. exact (IH (fun x Hx => Hq x (or_intror Hx)) st1).
Qed.

(** The entries other than [$sort] leave the sort clause alone. *)
Lemma foldM_process_entry_sort (subs : string) (columns : list column) (q : query)
  (st st' : state) :
  (forall entry, In entry q -> fst entry <> "$sort") ->
  foldM (process_entry subs columns) st q = Ok st' -> sort st' = sort st.
Proof.
  intros Hq H.
  pose proof (foldM_process_entry_set_sort subs columns (sort st) q Hq st) as E.
  rewrite set_sort_same, H in E. injection E as E. now rewrite E.
Qed.

Lemma foldM_sort_step_frame (columns : list column) (segments : list string) :
  forall st st',
    foldM (sort_step columns) st segments = Ok st' ->
    forall st0, sort st0 = sort st ->
                foldM (sort_step columns) st0 segments = Ok (set_sort (sort st') st0).
Proof.
  induction segments as [| c r IH]; intros st st' H st0 E.
  - injection H as <-. cbn. now rewrite <- E, set_sort_same.
  - cbn [foldM] in *. rewrite sort_step_eq in *.
    destruct (checkCol columns (without_minus c)); [| discriminate].
    cbn [bind] in *. rewrite E.
    rewrite (IH _ _ H (set_sort _ st0) eq_refl). reflexivity.
Qed.

Lemma process_sort_frame (columns : list column) (st st' : state) (v : qvalue) :
  process_sort columns st v = Ok st' ->
  forall st0, sort st0 = sort st ->
              process_sort columns st0 v = Ok (set_sort (sort st') st0).
Proof.
  unfold process_sort. destruct v as [[s | x] | ops]; try discriminate.
  destruct (getValue (Str s)) as [val | e]; [| discriminate]. cbn [bind].
  destruct (split_value val) as [segments | e]; [| discriminate]. cbn [bind].
  apply foldM_sort_step_frame.
Qed.

(** X6: where the [$sort] entry stands among the other entries does not
    matter: if a query compiles, the query with its [$sort] entry moved
    behind the entries that followed it compiles to the same result. *)
Theorem sort_entry_may_stand_anywhere :
  forall (subs : string) (columns : list column) (pre post : query)
         (v : qvalue) (r : compiled),
    (forall entry, In entry post -> fst entry <> "$sort") ->
    uri2sql subs columns (pre ++ ("$sort", v) :: post)%list = Ok r ->
    uri2sql subs columns (pre ++ post ++ [("$sort", v)])%list = Ok r.
Proof.
  intros subs columns pre post v r Hpost H. unfold uri2sql, compile in *.
  apply bind_Ok_inv in H. destruct H as [st3 [H Hr]].
  rewrite foldM_app in H. apply bind_Ok_inv in H. destruct H as [st1 [Hpre H]].
  cbn [foldM] in H. apply bind_Ok_inv in H. destruct H as [st2 [Hsort H]].
  rewrite process_entry_sort in Hsort.
  pose proof (process_sort_frame columns st1 st2 v Hsort st1 eq_refl) as E2.
  rewrite Hsort in E2. injection E2 as E2.
  rewrite E2, (foldM_process_entry_set_sort subs columns _ post Hpost) in H.
  apply map_result_Ok_inv in H. destruct H as [st3' [Hp E3]].
  rewrite foldM_app, Hpre. cbn [bind]. rewrite foldM_app, Hp. cbn [bind foldM].
  rewrite process_entry_sort.
  rewrite (process_sort_frame columns st1 st2 v Hsort st3'
             (foldM_process_entry_sort subs columns post st1 st3' Hpost Hp)).
  cbn [bind]. rewrite <- E3. exact Hr.
Qed.

Lemma sort_entry_may_stand_anywhere_witness :
  exists r,
    uri2sql "$" [] [("$sort", Scalar (Str "-age")); ("city", Scalar (Str "Paris"))]
    = Ok r
    /\ uri2sql "$" [] [("city", Scalar (Str "Paris")); ("$sort", Scalar (Str "-age"))]
       = Ok r
    /\ sql_string "$" r = "WHERE city = $1 ORDER BY age DESC".
Proof.
  eexists. split; [reflexivity |]. split; [| reflexivity].
  assert (Hpost : forall entry : string * qvalue,
             In entry [("city", Scalar (Str "Paris"))] -> fst entry <> "$sort").
  { intros entry [<- | []]. discriminate. }
  exact (sort_entry_may_stand_anywhere "$" [] [] [("city", Scalar (Str "Paris"))]
           (Scalar (Str "-age")) _ Hpost eq_refl).
Defined.

(** ** The allow-list only refuses *)

Section Gate.

Variable subs : string.
Variables columns columns' : list column.
Hypothesis wider :
  forall colName, checkCol columns colName = Ok tt -> checkCol columns' colName = Ok tt.

Lemma checkCol_wider (colName : string) (A : Type) (k : result A) (a : A) :
  (checkCol columns colName ;;; k) = Ok a ->
  (checkCol columns' colName ;;; k) = Ok a.
Proof.
  destruct (checkCol columns colName) as [[] |] eqn:E; [| discriminate].
  now rewrite (wider colName E).
Qed.

Lemma foldM_sort_step_wider (segments : list string) :
  forall st st',
    foldM (sort_step columns) st segments = Ok st' ->
    foldM (sort_step columns') st segments = Ok st'.
Proof.
  induction segments as [| c r IH]; intros st st' H; [exact H |].
  cbn [foldM] in *. rewrite sort_step_eq in *.
  destruct (checkCol columns (without_minus c)) as [[] |] eqn:E; [| discriminate].
  rewrite (wider _ E). cbn [bind] in *. exact (IH _ _ H).
Qed.

Lemma process_entry_wider (st st' : state) (entry : string * qvalue) :
  process_entry subs columns st entry = Ok st' ->
  process_entry subs columns' st entry = Ok st'.
Proof.
  destruct entry as [col v]. unfold process_entry.
  destruct (JS.charAt0 col =? "$").
  - destruct (col =? "$sort"); [| trivial]. unfold process_sort.
    destruct v as [[s | x] | ops]; trivial.
    destruct (getValue (Str s)) as [val | e]; [| discriminate]. cbn [bind].
    destruct (split_value val) as [segments | e]; [| discriminate]. cbn [bind].
    apply foldM_sort_step_wider.
  - unfold process_filter. apply checkCol_wider.
Qed.

Lemma uri2sql_wider (q : query) (r : compiled) :
  uri2sql subs columns q = Ok r -> uri2sql subs columns' q = Ok r.
Proof.
  unfold uri2sql, compile. intros H.
  apply bind_Ok_inv in H. destruct H as [st [H Hr]].
  assert (E : forall l st0 st1,
             foldM (process_entry subs columns) st0 l = Ok st1 ->
             foldM (process_entry subs columns') st0 l = Ok st1).
  { induction l as [| entry l IH]; intros st0 st1 Hl; [exact Hl |].
    cbn [foldM] in *. apply bind_Ok_inv in Hl. destruct Hl as [st2 [H2 Hl]].
    rewrite (process_entry_wider _ _ _ H2). cbn [bind]. exact (IH _ _ Hl). }
  rewrite (E _ _ _ H). exact Hr.
Qed.

End Gate.

(** X10: the allow-list only refuses.  A query that compiles under an
    allow-list compiles to the same result with the empty allow-list, and
    with any allow-list that has more records. *)
Theorem allow_list_only_refuses :
  forall (subs : string) (columns : list column) (q : query) (r : compiled),
    uri2sql subs columns q = Ok r ->
    uri2sql subs [] q = Ok r
    /\ (forall more, columns <> [] -> uri2sql subs (columns ++ more) q = Ok r).
Proof.
  intros subs columns q r H. split.
  - apply (uri2sql_wider subs columns []); [reflexivity | exact H].
  - intros more Hne. apply (uri2sql_wider subs columns (columns ++ more)); [| exact H].
    intros colName. rewrite !checkCol_eq.
    destruct columns as [| o rest]; [contradiction |].
    cbn [length app Nat.eqb negb andb].
    destruct (known (o :: rest) colName) eqn:K; [| discriminate].
    intros _. unfold known in *. cbn [app] in K.
    change (o :: rest ++ more)%list with ((o :: rest) ++ more)%list.
    now rewrite existsb_app, K.
Qed.

Lemma allow_list_only_refuses_witness :
  uri2sql "$" [] [("a", Object [("gt", Str "x")])]
  = uri2sql "$" [ {| column_name := "a" |} ] [("a", Object [("gt", Str "x")])].
Proof.
  destruct (uri2sql "$" [ {| column_name := "a" |} ] [("a", Object [("gt", Str "x")])])
    as [r | e] eqn:E; [| vm_compute in E; discriminate].
  exact (proj1 (allow_list_only_refuses "$" [ {| column_name := "a" |} ] _ r E)).
Defined.

(** ** WHERE and AND *)

Lemma process_entry_filter_grows (subs : string) (columns : list column)
  (st st' : state) (col : string) (v : qvalue) :
  is_filter (col, v) = true ->
  process_entry subs columns st (col, v) = Ok st' ->
  exists ps,
    sql st' = (sql st ++ Text (keyword subs st) :: Text (col ++ " ") :: ps)%list.
Proof.
  unfold is_filter. cbn [fst]. intros Hf H. apply negb_true_iff in Hf.
  destruct v as [p | ops].
  - rewrite (process_entry_scalar subs columns st col p Hf) in H.
    destruct (checkCol columns col); [| discriminate]. cbn [bind] in H.
    apply bind_Ok_inv in H. destruct H as [val [_ H]]. injection H as <-.
    eexists. reflexivity.
  - rewrite (process_entry_object subs columns st col ops Hf) in H.
    destruct (checkCol columns col); [| discriminate]. cbn [bind] in H.
    apply bind_Ok_inv in H. destruct H as [acc [Ha H]]. injection H as <-.
    destruct (foldM_process_op_extends _ _ _ Ha) as [ps vals Hs _ _ _ _].
    exists ps. rewrite Hs. cbn [snd emit sql]. now rewrite <- app_assoc.
Qed.

Lemma process_entry_directive_keeps (subs : string) (columns : list column)
  (st st' : state) (entry : string * qvalue) :
  is_filter entry = false ->
  process_entry subs columns st entry = Ok st' ->
  sql st' = sql st /\ valueArray st' = valueArray st
  /\ substitution st' = substitution st.
Proof.
  destruct entry as [col v]. unfold is_filter. cbn [fst]. intros Hf H.
  apply negb_false_iff in Hf. unfold process_entry in H. rewrite Hf in H.
  destruct (col =? "$sort"); [| injection H as <-; auto].
  pose proof (process_sort_frame columns st st' v H st eq_refl) as E.
  rewrite H in E. injection E as ->. auto.
Qed.

Lemma foldM_process_entry_blank (subs : string) (columns : list column) (q : query) :
  forall st st',
    foldM (process_entry subs columns) st q = Ok st' ->
    forallb blank (sql st') = forallb blank (sql st) && negb (existsb is_filter q).
Proof.
  induction q as [| [col v] q IH]; intros st st' H.
  - injection H as <-. cbn. now rewrite andb_true_r.
  - cbn [foldM] in H. apply bind_Ok_inv in H. destruct H as [st1 [H1 H]].
    rewrite (IH _ _ H). cbn [existsb].
    destruct (is_filter (col, v)) eqn:Hf.
    + destruct (process_entry_filter_grows _ _ _ _ _ _ Hf H1) as [ps ->].
      rewrite forallb_app. cbn [forallb blank]. unfold keyword.
      destruct (render subs (sql st) =? ""); cbn; now rewrite !andb_false_r.
    + destruct (process_entry_directive_keeps _ _ _ _ _ Hf H1) as [-> _].
      reflexivity.
Qed.

(** X7: a filter entry opens with [WHERE ] when no filter entry came before
    it and with [AND ] otherwise, followed by its column and a space;
    directives before it do not count.  Entries that are all directives
    leave the SQL text and the values empty. *)
Theorem where_comes_first_then_and :
  forall (subs : string) (columns : list column) (pre : query) (st : state),
    compile subs columns pre = Ok st ->
    (existsb is_filter pre = false -> sql st = [] /\ valueArray st = [])
    /\ (forall col v st',
           is_filter (col, v) = true ->
           process_entry subs columns st (col, v) = Ok st' ->
           exists ps,
             sql st'
             = (sql st
                ++ Text (if existsb is_filter pre then "AND " else "WHERE ")
                :: Text (col ++ " ") :: ps)%list).
Proof.
  intros subs columns pre st Hpre. unfold compile in Hpre. split.
  - intros Hno. clear -Hpre Hno.
    assert (E : forall q st0 st1,
               existsb is_filter q = false ->
               foldM (process_entry subs columns) st0 q = Ok st1 ->
               sql st1 = sql st0 /\ valueArray st1 = valueArray st0).
    { induction q as [| entry q IH]; intros st0 st1 Hq H.
      - injection H as <-. auto.
      - cbn [existsb] in Hq. apply orb_false_iff in Hq. destruct Hq as [He Hq].
        cbn [foldM] in H. apply bind_Ok_inv in H. destruct H as [st2 [H2 H]].
        destruct (process_entry_directive_keeps _ _ _ _ _ He H2) as [E1 [E2 _]].
        destruct (IH _ _ Hq H) as [E3 E4]. split; congruence. }
    exact (E pre initial st Hno Hpre).
  - intros col v st' Hf H.
    destruct (process_entry_filter_grows _ _ _ _ _ _ Hf H) as [ps E].
    exists ps. rewrite E. unfold keyword.
    rewrite render_is_empty, (foldM_process_entry_blank _ _ _ _ _ Hpre).
    cbn [initial sql forallb andb]. now destruct (existsb is_filter pre).
Qed.

Lemma where_comes_first_then_and_witness :
  exists ps,
    sql (emit [Text "AND "; Text "b "; Text "= "; Bind 2; Text " "] [VString "y"]
           (emit [Text "WHERE "; Text "a "; Text "= "; Bind 1; Text " "]
              [VString "x"] initial))
    = (sql (emit [Text "WHERE "; Text "a "; Text "= "; Bind 1; Text " "]
              [VString "x"] initial)
       ++ Text "AND " :: Text "b " :: ps)%list.
Proof.
  exact (proj2 (where_comes_first_then_and "$" []
                  [("$sort", Scalar (Str "a")); ("a", Scalar (Str "x"))]
                  (set_sort "ORDER BY a"
                     (emit [Text "WHERE "; Text "a "; Text "= "; Bind 1; Text " "]
                        [VString "x"] initial)) eq_refl)
           "b" (Scalar (Str "y")) _ eq_refl eq_refl).
Defined.

(** ** The segments of an [in] value *)

Lemma join_split (s : string) : String.concat ":" (JS.split ":" s) = s.
Proof.
  induction s as [| c r IH]; [reflexivity |]. cbn [JS.split].
  pose proof (split_not_nil ":" r) as Hne.
  destruct (Ascii.eqb_spec c ":") as [-> | _].
  - destruct (JS.split ":" r) as [| h t]; [contradiction |].
    cbn [String.concat] in *. now rewrite IH.
  - destruct (JS.split ":" r) as [| h [| h' t]]; [contradiction | |];
      cbn [String.concat String.append] in *; now rewrite IH.
Qed.

Lemma length_split (s : string) :
  length (JS.split ":" s) = S (count_occ ascii_dec (chars s) ":"%char).
Proof.
  induction s as [| c r IH]; [reflexivity |].
  cbn [JS.split chars list_ascii_of_string count_occ]. fold (chars r).
  pose proof (split_not_nil ":" r) as Hne.
  destruct (Ascii.eqb_spec c ":") as [-> | Hc].
  - destruct (ascii_dec ":" ":"); [| contradiction]. cbn [length]. now rewrite IH.
  - destruct (ascii_dec c ":"); [contradiction |].
    destruct (JS.split ":" r); [contradiction | exact IH].
Qed.

(** X11: the [in] operator keeps the whole value: when its round succeeds
    the value is a string, the pushed segments joined by colons give that
    string back, there is one more segment than the string has colons, and
    the counter advances by the number of segments. *)
Theorem in_segments_join_back :
  forall (negate negate' : bool) (st st' : state) (op : string) (v : scalar),
    without_minus op = "in" ->
    process_op (negate, st) (op, v) = Ok (negate', st') ->
    exists s segments,
      v = Str s
      /\ String.concat ":" segments = s
      /\ length segments = S (count_occ ascii_dec (chars s) ":"%char)
      /\ valueArray st' = (valueArray st ++ map VString segments)%list
      /\ substitution st' = (length segments + substitution st)%nat.
Proof.
  intros negate negate' st st' op v Ho H.
  rewrite process_op_eq in H. unfold operand in H. rewrite Ho in H.
  cbn [String.eqb Ascii.eqb Bool.eqb] in H. rewrite process_in_eq in H.
  apply bind_Ok_inv in H. destruct H as [st1 [H E]]. injection E as _ <-.
  apply bind_Ok_inv in H. destruct H as [val [Hv H]].
  apply bind_Ok_inv in H. destruct H as [segments [Hs H]]. injection H as <-.
  destruct val as [p | s |]; try discriminate. injection Hs as <-.
  apply getValue_string in Hv. destruct Hv as [-> _].
  exists s, (JS.split ":" s). repeat split.
  - apply join_split.
  - apply length_split.
  - cbn [emit valueArray]. now rewrite app_nil_r.
  - cbn [emit substitution]. rewrite binds_app, binds_in_pieces, length_app, length_seq.
    cbn. lia.
Qed.

Lemma in_segments_join_back_witness :
  exists s segments,
    Str "a::b" = Str s
    /\ String.concat ":" segments = s
    /\ length segments = S (count_occ ascii_dec (chars s) ":"%char)
    /\ valueArray
         (emit [Text "NOT IN ("; Text ""; Bind 1; Text ", "; Bind 2; Text ", "; Bind 3;
                Text ") "] [VString "a"; VString ""; VString "b"] initial)
       = (valueArray initial ++ map VString segments)%list
    /\ substitution
         (emit [Text "NOT IN ("; Text ""; Bind 1; Text ", "; Bind 2; Text ", "; Bind 3;
                Text ") "] [VString "a"; VString ""; VString "b"] initial)
       = (length segments + substitution initial)%nat.
Proof.
  exact (in_segments_join_back false true initial _ "-in" (Str "a::b") eq_refl eq_refl).
Defined.

(** ** Longer queries *)

(** X12: entries appended to a query only append.  If the longer query
    compiles, the shorter one does, its values are a prefix of the values
    of the longer one, and its placeholders keep their numbers: the added
    placeholders are numbered on from the count of the earlier values. *)
Theorem appended_entries_only_append :
  forall (subs : string) (columns : list column) (q1 q2 : query) (r : compiled),
    uri2sql subs columns (q1 ++ q2)%list = Ok r ->
    exists r1 ps vals,
      uri2sql subs columns q1 = Ok r1
      /\ values r = (values r1 ++ vals)%list
      /\ binds (out_sql r) = (binds (out_sql r1) ++ binds ps)%list
      /\ binds ps = seq (S (length (values r1))) (length vals).
Proof.
  intros subs columns q1 q2 r H. unfold uri2sql, compile in *.
  apply bind_Ok_inv in H. destruct H as [st [H Hr]]. injection Hr as <-.
  rewrite foldM_app in H. apply bind_Ok_inv in H. destruct H as [st1 [H1 H2]].
  rewrite H1. cbn [bind].
  destruct (compile_extends subs columns q1 initial st1 H1) as [ps1 vals1 _ Hv1 Hn1 _ _].
  destruct (compile_extends subs columns q2 st1 st H2) as [ps vals Hs Hv _ Hb _].
  exists {| out_sql := sql st1 ++ [Text (sort st1)]; values := valueArray st1 |}, ps, vals.
  cbn [out_sql values]. repeat split.
  - exact Hv.
  - rewrite !binds_app, Hs, binds_app. cbn [binds]. now rewrite !app_nil_r.
  - rewrite Hb, Hn1, Hv1. cbn [initial valueArray substitution app]. f_equal. lia.
Qed.

Lemma appended_entries_only_append_witness :
  exists r1 ps vals,
    uri2sql "$" [] [("a", Scalar (Str "x"))] = Ok r1
    /\ [VString "x"; VString "p"; VString "q"] = (values r1 ++ vals)%list
    /\ [1; 2; 3] = (binds (out_sql r1) ++ binds ps)%list
    /\ binds ps = seq (S (length (values r1))) (length vals).
Proof.
  exact (appended_entries_only_append "$" [] [("a", Scalar (Str "x"))]
           [("b", Object [("in", Str "p:q")])] _ eq_refl).
Defined.

(** ** Several operators on one column *)

Lemma in_pieces_glue (segments : list string) :
  forall n first t, In (Text t) (in_pieces n first segments) -> In t glue.
Proof.
  induction segments as [| s r IH]; intros n first t H; [destruct H |].
  cbn [in_pieces] in H. destruct H as [[= <-] | [H | H]];
    [destruct first; cbn; auto 10 | discriminate | exact (IH _ _ _ H)].
Qed.

Lemma operand_glue (o : string) (st st' : state) (v : scalar) :
  operand o st v = Ok st' ->
  exists ps, sql st' = (sql st ++ ps)%list /\ forall t, In (Text t) ps -> In t glue.
Proof.
  unfold operand.
  destruct (o =? "is").
  { intros [= <-]. exists [Text "NULL "]. split; [reflexivity |].
    intros t [[= <-] | []]. cbn; auto 10. }
  destruct (o =? "tween"); [| destruct (o =? "in")].
  - rewrite process_tween_eq. intros H.
    apply bind_Ok_inv in H. destruct H as [val [_ H]].
    apply bind_Ok_inv in H. destruct H as [varr [_ H]].
    destruct varr as [| v0 [| v1 rest]]; try discriminate. injection H as <-.
    eexists. split; [reflexivity |].
    intros t [E | [[= <-] | [E | [[= <-] | []]]]]; try discriminate; cbn; auto 10.
  - rewrite process_in_eq. intros H.
    apply bind_Ok_inv in H. destruct H as [val [_ H]].
    apply bind_Ok_inv in H. destruct H as [segments [_ H]]. injection H as <-.
    eexists. split; [reflexivity |]. intros t Ht. apply in_app_or in Ht.
    destruct Ht as [Ht | [[= <-] | []]]; [exact (in_pieces_glue _ _ _ _ Ht) | cbn; auto 10].
  - rewrite process_single_eq. intros H.
    apply bind_Ok_inv in H. destruct H as [val [_ H]]. injection H as <-.
    eexists. split; [reflexivity |].
    intros t [E | [[= <-] | []]]; [discriminate | cbn; auto 10].
Qed.

Lemma foldM_process_op_texts (ops : list (string * scalar)) :
  forall acc acc',
    foldM process_op acc ops = Ok acc' ->
    exists ps,
      sql (snd acc') = (sql (snd acc) ++ ps)%list
      /\ forall t, In (Text t) ps ->
                   In t glue
                   \/ exists op v b, In (op, v) ops /\ t = op_text b (without_minus op).
Proof.
  induction ops as [| [op v] ops IH]; intros [negate st] acc' H.
  - injection H as <-. exists []. split; [now rewrite app_nil_r | intros t []].
  - cbn [foldM] in H. apply bind_Ok_inv in H. destruct H as [[n1 st1] [H1 H]].
    rewrite process_op_eq in H1. apply bind_Ok_inv in H1.
    destruct H1 as [st2 [Ho E]]. injection E as _ <-.
    destruct (operand_glue _ _ _ _ Ho) as [ps1 [Hs1 Hg1]].
    destruct (IH _ _ H) as [ps2 [Hs2 Hg2]]. cbn [snd] in *.
    exists (Text (op_text (has_minus op || negate) (without_minus op)) :: ps1 ++ ps2).
    split.
    + rewrite Hs2, Hs1. cbn [emit sql]. rewrite <- !app_assoc. reflexivity.
    + intros t [[= <-] | Ht].
      * right. exists op, v, (has_minus op || negate). split; [left |]; reflexivity.
      * apply in_app_or in Ht. destruct Ht as [Ht | Ht]; [left; exact (Hg1 t Ht) |].
        destruct (Hg2 t Ht) as [Hg | [op' [v' [b [Hin E]]]]]; [left; exact Hg |].
        right. exists op', v', b. split; [right; exact Hin | exact E].
Qed.

(** X13: the operators of one column are written one after the other
    behind a single keyword and a single column name.  Apart from those
    two, every literal text of the entry is the SQL operator of one of its
    keys or one of the fixed texts that follow an operator; with no
    operator at all the entry is the keyword and the column alone, and
    binds nothing. *)
Theorem operators_share_one_column_name :
  forall (subs : string) (columns : list column) (st st' : state)
         (col : string) (ops : list (string * scalar)),
    (JS.charAt0 col =? "$") = false ->
    process_entry subs columns st (col, Object ops) = Ok st' ->
    exists ps,
      sql st' = (sql st ++ Text (keyword subs st) :: Text (col ++ " ") :: ps)%list
      /\ (forall t, In (Text t) ps ->
                    In t glue
                    \/ exists op v b, In (op, v) ops /\ t = op_text b (without_minus op))
      /\ (ops = [] -> ps = [] /\ valueArray st' = valueArray st).
Proof.
  intros subs columns st st' col ops Hcol H.
  rewrite (process_entry_object subs columns st col ops Hcol) in H.
  destruct (checkCol columns col); [| discriminate]. cbn [bind] in H.
  apply bind_Ok_inv in H. destruct H as [acc [Ha H]]. injection H as <-.
  destruct ops as [| entry ops].
  - injection Ha as <-. exists []. cbn [snd emit sql valueArray].
    split; [reflexivity | split; [intros t [] |]].
    intros _. split; [reflexivity | apply app_nil_r].
  - destruct (foldM_process_op_texts _ _ _ Ha) as [ps [Hs Hg]].
    exists ps. cbn [snd emit sql] in Hs. rewrite Hs, <- app_assoc.
    repeat split; [exact Hg | discriminate | discriminate].
Qed.

Lemma operators_share_one_column_name_witness :
  exists ps,
    sql (emit [Text "WHERE "; Text "age "; Text ">= "; Bind 1; Text " ";
               Text "< "; Bind 2; Text " "] [VString "x"; VString "y"] initial)
    = (sql initial ++ Text "WHERE " :: Text "age " :: ps)%list.
Proof.
  destruct (operators_share_one_column_name "$" [] initial _ "age"
              [("gte", Str "x"); ("lt", Str "y")] eq_refl eq_refl) as [ps [E _]].
  exists ps. exact E.
Defined.
